(** * RequestsFetcher: bounded chunked download over pooled sessions

    A shallow embedding of [tuf/ngclient/_internal/requests_fetcher.py].

    The Python class keeps a dictionary of [requests.Session] objects, one per
    scheme+hostname key, and hands out a generator that reads the body of a
    streamed HTTP response in rounds.  Here

    - Python objects with identity (sessions) live in an explicit heap and are
      named by their location;
    - the generator returned by [fetch] is a small state machine with the two
      operations Python offers on it, [gen_next] and [gen_close];
    - the calls into [requests], [urllib3], [urllib.parse] and [time] are the
      environment: their answers are inputs of the model. *)

From Stdlib Require Import ZArith Lia String Ascii List Bool.
From Stdlib.Strings Require Import Byte.
From stdpp Require Import gmap strings list pretty.

Open Scope Z_scope.

(** ** Exceptions *)

(** The three exceptions of [tuf.exceptions] this module raises, and the
    library exceptions it meets.  [LibraryError cls msg] stands for an
    exception of any other class raised by a library call. *)
Inductive exn : Type :=
| URLParsingError (msg : string)
| FetcherHTTPError (msg : string) (status_code : Z)
| SlowRetrievalError (msg : string)
| HTTPError (msg : string) (response_status_code : Z)
| ReadTimeoutError (msg : string)
| ValueError (msg : string)
| KeyError (msg : string)
| LibraryError (cls msg : string).


Inductive Result (A : Type) : Type :=
| Ok (a : A)
| Raise (e : exn).
Arguments Ok {A} a.
Arguments Raise {A} e.

(** ** Environment: [urllib.parse], [requests], [urllib3], [time] *)

(** The two attributes of [urllib.parse.urlparse(url)] that are read.
    [hostname] is [None] when the URL has no host. *)
Record ParseResult : Type := mkParseResult {
  scheme : string;
  hostname : option string
}.

(** Python truthiness of a [str] and of an [Optional[str]]. *)
Definition truthy_str (s : string) : bool := negb (String.eqb s "").

Definition truthy_opt_str (o : option string) : bool :=
  match o with
  | None => false
  | Some s => truthy_str s
  end.

(** A [requests.Session]: only its header dictionary is touched here. *)
Record Session : Type := mkSession {
  headers : gmap string string
}.

(** What the server puts on the wire after the response headers: a write of
    some bytes, or a condition that makes the pending read raise ([urllib3]
    turns a socket timeout into [ReadTimeoutError]).  The end of the list is
    the end of the body. *)
Inductive WireEvent : Type :=
| Data (bs : list byte)
| Raises (e : exn).

(** An open [requests.Response].  [reads] logs the amounts passed to
    [raw.read], oldest first; [closed] counts the calls of [close]. *)
Record Response : Type := mkResponse {
  status_code : Z;
  reason : string;
  resp_url : string;
  raw : list WireEvent;
  reads : list Z;
  closed : nat
}.

(** The answer of the network to one [session.get]: the call raises, or the
    status line and headers arrive and the body is left on the wire.  [url]
    is the URL of the response, which [requests] takes from the request it
    prepared or from the last redirect. *)
Inductive GetOutcome : Type :=
| ConnFails (e : exn)
| Responds (status : Z) (reason : string) (url : string) (body : list WireEvent).

(** Network operations issued by the fetcher, oldest first. *)
Inductive NetOp : Type :=
| NetGet (session : nat) (url : string) (stream : bool) (timeout : Z).

Inductive ReadResult : Type :=
| ReadData (data : list byte)
| ReadRaises (e : exn).

(** [raw.read()] without an amount: everything up to the end of the body. *)
Fixpoint read_all (w : list WireEvent) : ReadResult * list WireEvent :=
  match w with
  | [] => (ReadData [], [])
  | Data bs :: w' =>
      match read_all w' with
      | (ReadData r, w'') => (ReadData (bs ++ r), w'')
      | other => other
      end
  | Raises e :: w' => (ReadRaises e, w')
  end.

(** [raw.read(n)] for [n > 0]: blocks until [n] bytes have arrived or the
    body has ended, whichever comes first; an error met while waiting is
    raised and the bytes gathered for this read are lost. *)
Fixpoint read_upto (n : nat) (w : list WireEvent) : ReadResult * list WireEvent :=
  match n, w with
  | O, _ => (ReadData [], w)
  | _, [] => (ReadData [], [])
  | _, Data bs :: w' =>
      if (length bs <=? n)%nat then
        match read_upto (n - length bs) w' with
        | (ReadData r, w'') => (ReadData (bs ++ r), w'')
        | other => other
        end
      else (ReadData (take n bs), Data (drop n bs) :: w')
  | _, Raises e :: w' => (ReadRaises e, w')
  end.

(** The [ValueError] of a read that is asked for an amount below [-1]. *)
Definition read_refused : exn := ValueError "read length must be non-negative or -1".

(** [response.raw.read(amt)].  A read of zero bytes returns at once without
    touching the socket; [-1] stands for no amount; any other negative
    amount is refused before anything is read.  Amounts are integers of
    any size: the limit of the reader on the size of an amount is left
    out. *)
Definition raw_read (amt : Z) (w : list WireEvent) : ReadResult * list WireEvent :=
  if amt =? 0 then (ReadData [], w)
  else if amt =? -1 then read_all w
  else if amt <? 0 then (ReadRaises read_refused, w)
  else read_upto (Z.to_nat amt) w.

(** [response.close()]. *)
Definition response_close (r : Response) : Response :=
  mkResponse (status_code r) (reason r) (resp_url r) (raw r) (reads r) (S (closed r)).

(** [response.raw.read(amt)] on the response object. *)
Definition response_read (amt : Z) (r : Response) : ReadResult * Response :=
  let '(res, w') := raw_read amt (raw r) in
  (res, mkResponse (status_code r) (reason r) (resp_url r) w' (reads r ++ [amt]) (closed r)).

(** [requests]: a status of 400 to 599 is a failure. *)
Definition status_indicates_failure (status : Z) : bool :=
  (400 <=? status) && (status <? 600).

(** [response.raise_for_status()] of [requests]; the [HTTPError] carries the
    response, of which [fetch] reads the status code. *)
Definition raise_for_status (r : Response) : Result unit :=
  if (400 <=? status_code r) && (status_code r <? 500) then
    Raise (HTTPError (pretty (status_code r) +:+ " Client Error: " +:+ reason r
                      +:+ " for url: " +:+ resp_url r) (status_code r))
  else if (500 <=? status_code r) && (status_code r <? 600) then
    Raise (HTTPError (pretty (status_code r) +:+ " Server Error: " +:+ reason r
                      +:+ " for url: " +:+ resp_url r) (status_code r))
  else Ok tt.

(** The message of the [HTTPError] raised for a failure status. *)
Definition http_error_msg (r : Response) : string :=
  pretty (status_code r)
  +:+ (if status_code r <? 500 then " Client Error: " else " Server Error: ")
  +:+ reason r +:+ " for url: " +:+ resp_url r.

(** [session.get(url, stream=True, timeout=...)]: the response comes back
    with its body unread. *)
Definition session_get (srv : GetOutcome) (url : string) : Result Response :=
  match srv with
  | ConnFails e => Raise e
  | Responds status rsn response_url body =>
      Ok (mkResponse status rsn response_url body [] 0)
  end.

(** [time.sleep(secs)]: a negative duration is refused. *)
Definition time_sleep (secs : Z) : Result unit :=
  if secs <? 0 then Raise (ValueError "sleep length must be non-negative")
  else Ok tt.

(** ** The fetcher object *)

Record RequestsFetcher : Type := mkRequestsFetcher {
  _sessions : gmap string nat;
  socket_timeout : Z;
  chunk_size : Z;
  sleep_before_round : option Z
}.

(** [RequestsFetcher.__init__]. *)
Definition __init__ : RequestsFetcher :=
  mkRequestsFetcher ∅ 4 400000 None.

(** The fetcher together with the session objects it refers to and the
    network operations issued so far. *)
Record State : Type := mkState {
  self : RequestsFetcher;
  heap : list Session;
  net : list NetOp
}.

Definition set_sessions (f : RequestsFetcher) (m : gmap string nat) : RequestsFetcher :=
  mkRequestsFetcher m (socket_timeout f) (chunk_size f) (sleep_before_round f).

(** ** The generator returned by [fetch] *)

(** A Python generator object is created unstarted; it then alternates
    between running and being suspended at its [yield], and ends finished.
    The local [bytes_received] is kept while suspended. *)
Inductive GenState : Type :=
| Created
| Suspended (bytes_received : Z)
| Finished.

Record Generator : Type := mkGenerator {
  g_state : GenState;
  g_response : Response;
  g_required_length : Z
}.

(** What one [next(gen)] gives the consumer. *)
Inductive Pull : Type :=
| Yield (data : list byte)
| StopIteration
| PullRaises (e : exn).

(** Calling the generator function [_chunks] runs none of its body. *)
Definition _chunks (response : Response) (required_length : Z) : Generator :=
  mkGenerator Created response required_length.

(** [finally: response.close()], after which the generator is finished. *)
Definition _chunks_finally (response : Response) (required_length : Z) : Generator :=
  mkGenerator Finished (response_close response) required_length.

(** [except urllib3.exceptions.ReadTimeoutError as e:
       raise exceptions.SlowRetrievalError(str(e))];
    any other exception passes. *)
Definition _chunks_except (e : exn) : exn :=
  match e with
  | ReadTimeoutError msg => SlowRetrievalError msg
  | _ => e
  end.

(** [if self.sleep_before_round: time.sleep(self.sleep_before_round)]. *)
Definition sleep_if_set (f : RequestsFetcher) : Result unit :=
  match sleep_before_round f with
  | None => Ok tt
  | Some secs => if secs =? 0 then Ok tt else time_sleep secs
  end.

(** One round of the [while True] loop, from its top to the [yield] or to
    the exit of the [try] statement.  The attributes of [self] are read in
    every round. *)
Definition _chunks_round (f : RequestsFetcher) (bytes_received : Z) (g : Generator)
  : Pull * Generator :=
  let required_length := g_required_length g in
  match sleep_if_set f with
  | Raise e => (PullRaises (_chunks_except e), _chunks_finally (g_response g) required_length)
  | Ok _ =>
      let read_amount := Z.min (chunk_size f) (required_length - bytes_received) in
      let '(res, response) := response_read read_amount (g_response g) in
      match res with
      | ReadRaises e =>
          (PullRaises (_chunks_except e), _chunks_finally response required_length)
      | ReadData data =>
          let bytes_received := bytes_received + Z.of_nat (length data) in
          match data with
          | [] => (StopIteration, _chunks_finally response required_length)
          | _ :: _ => (Yield data, mkGenerator (Suspended bytes_received) response required_length)
          end
      end
  end.

(** [next(gen)].  An unstarted generator enters the [try] with
    [bytes_received = 0]; a suspended one resumes after the [yield], at
    [if bytes_received >= required_length: break]. *)
Definition gen_next (f : RequestsFetcher) (g : Generator) : Pull * Generator :=
  match g_state g with
  | Created => _chunks_round f 0 g
  | Suspended bytes_received =>
      if bytes_received >=? g_required_length g
      then (StopIteration, _chunks_finally (g_response g) (g_required_length g))
      else _chunks_round f bytes_received g
  | Finished => (StopIteration, g)
  end.

(** [gen.close()], which Python also runs when the generator object is
    dropped.  On an unstarted generator no code of the body runs; on a
    suspended one [GeneratorExit] is raised at the [yield], which the
    [except] clause does not catch and the [finally] clause sees. *)
Definition gen_close (g : Generator) : Generator :=
  match g_state g with
  | Created => mkGenerator Finished (g_response g) (g_required_length g)
  | Suspended _ => _chunks_finally (g_response g) (g_required_length g)
  | Finished => g
  end.

(** How a consumer's use of the stream ended. *)
Inductive Outcome : Type :=
| Exhausted
| Failed (e : exn)
| Abandoned.

(** A consumer that pulls until the stream ends but asks for at most [n]
    chunks, dropping the generator after the [n]-th. *)
Fixpoint consume (n : nat) (f : RequestsFetcher) (g : Generator)
  : list (list byte) * Outcome * Generator :=
  match n with
  | O => ([], Abandoned, gen_close g)
  | S n' =>
      match gen_next f g with
      | (Yield data, g') =>
          let '(chunks, o, g'') := consume n' f g' in (data :: chunks, o, g'')
      | (StopIteration, g') => ([], Exhausted, g')
      | (PullRaises e, g') => ([], Failed e, g')
      end
  end.

(** Total number of bytes in a list of chunks. *)
Definition total_length (chunks : list (list byte)) : Z :=
  Z.of_nat (length (concat chunks)).

(** ** [fetch] and [_get_session] *)

Inductive FetchOutcome : Type :=
| FetchRaises (e : exn) (response : option Response)
| FetchReturns (g : Generator).

(** One call of [fetch] by a client that keeps only the state. *)
Record Call : Type := mkCall {
  call_url : string;
  call_required_length : Z;
  call_server : GetOutcome
}.

Section Fetcher.

(** [urllib.parse.urlparse], which returns the parsed URL or raises (a
    [ValueError] for some texts), [tuf.__version__] and the user agent of
    [requests]. *)
Variable urlparse : string -> Result ParseResult.
Variable tuf_version : string.
Variable default_user_agent : string.

(** [requests.Session()]: a new session with the default headers. *)
Definition requests_Session : Session :=
  mkSession (<["User-Agent" := default_user_agent]>
             (<["Accept-Encoding" := "gzip, deflate"]>
              (<["Accept" := "*/*"]>
               (<["Connection" := "keep-alive"]> ∅)))).

(** The key under which the session of a parsed URL is stored. *)
Definition session_index_of (parsed_url : ParseResult) : string :=
  scheme parsed_url +:+ "+" +:+ default "" (hostname parsed_url).

Definition _get_session (st : State) (url : string) : Result nat * State :=
  match urlparse url with
  | Raise e => (Raise e, st)
  | Ok parsed_url =>
    if negb (truthy_str (scheme parsed_url)) || negb (truthy_opt_str (hostname parsed_url))
    then (Raise (URLParsingError ("Could not get scheme and hostname from URL: " +:+ url)), st)
    else
      let session_index := session_index_of parsed_url in
      match _sessions (self st) !! session_index with
      | Some session => (Ok session, st)
      | None =>
          let session := length (heap st) in
          let heap1 := heap st ++ [requests_Session] in
          let self1 :=
            set_sessions (self st) (<[session_index := session]> (_sessions (self st))) in
          match headers requests_Session !! "User-Agent" with
          | None => (Raise (KeyError "User-Agent"), mkState self1 heap1 (net st))
          | Some requests_user_agent =>
              let tuf_user_agent := "tuf/" +:+ tuf_version +:+ " " +:+ requests_user_agent in
              let updated :=
                mkSession (<["User-Agent" := tuf_user_agent]>
                           (<["Accept-Encoding" := "identity"]> (headers requests_Session))) in
              (Ok session, mkState self1 (<[session := updated]> heap1) (net st))
          end
      end
  end.

Definition fetch (st : State) (url : string) (required_length : Z) (srv : GetOutcome)
  : FetchOutcome * State :=
  match _get_session st url with
  | (Raise e, st1) => (FetchRaises e None, st1)
  | (Ok session, st1) =>
      let st2 := mkState (self st1) (heap st1)
                   (net st1 ++ [NetGet session url true (socket_timeout (self st1))]) in
      match session_get srv url with
      | Raise e => (FetchRaises e None, st2)
      | Ok response =>
          match raise_for_status response with
          | Raise (HTTPError msg status) =>
              (FetchRaises (FetcherHTTPError msg status) (Some (response_close response)), st2)
          | Raise e => (FetchRaises e (Some response), st2)
          | Ok _ => (FetchReturns (_chunks response required_length), st2)
          end
      end
  end.

(** A series of calls of [fetch] on one fetcher, each with the answer the
    network gives it; the streams are left to their consumers. *)
Fixpoint run_calls (st : State) (calls : list Call) : State :=
  match calls with
  | [] => st
  | c :: calls' =>
      run_calls (snd (fetch st (call_url c) (call_required_length c) (call_server c))) calls'
  end.

(** The exception [e] reaches the caller of [fetch]: from the call itself,
    or from the stream it returned while a consumer of at most [n] chunks
    pulls from it. *)
Definition surfaces (st : State) (url : string) (required_length : Z)
    (srv : GetOutcome) (n : nat) (e : exn) : Prop :=
  (exists r st', fetch st url required_length srv = (FetchRaises e r, st'))
  \/ (exists g st' chunks g',
        fetch st url required_length srv = (FetchReturns g, st')
        /\ consume n (self st') g = (chunks, Failed e, g')).

End Fetcher.


(** ** A reading of [urllib.parse.urlparse] for concrete URLs

    The development is parametric in [urlparse].  For runs on concrete URLs
    the function below follows [urlsplit] and the [hostname] property.  It
    agrees with them on texts of ASCII characters that begin with a letter,
    hold no blank or control character and, when the host is in brackets,
    have a valid IPv6 address between them. *)
Module UrlParse.

Definition is_alpha (c : ascii) : bool :=
  let n := nat_of_ascii c in
  ((65 <=? n) && (n <=? 90) || (97 <=? n) && (n <=? 122))%nat.

Definition is_digit (c : ascii) : bool :=
  let n := nat_of_ascii c in ((48 <=? n) && (n <=? 57))%nat.

(** [scheme_chars]: letters, digits, [+], [-] and [.]. *)
Definition is_scheme_char (c : ascii) : bool :=
  is_alpha c || is_digit c || Ascii.eqb c "+" || Ascii.eqb c "-" || Ascii.eqb c ".".

Definition lower_char (c : ascii) : ascii :=
  let n := nat_of_ascii c in
  if ((65 <=? n) && (n <=? 90))%nat then ascii_of_nat (n + 32) else c.

Fixpoint lower (s : string) : string :=
  match s with
  | EmptyString => EmptyString
  | String c s' => String (lower_char c) (lower s')
  end.

Fixpoint all_chars (p : ascii -> bool) (s : string) : bool :=
  match s with
  | EmptyString => true
  | String c s' => p c && all_chars p s'
  end.

(** [s.partition(sep)] generalised to a set of separators: the text before
    the first separator, and the text after it when there is one. *)
Fixpoint partition (p : ascii -> bool) (s : string) : string * option string :=
  match s with
  | EmptyString => (EmptyString, None)
  | String c s' =>
      if p c then (EmptyString, Some s')
      else let '(before, after) := partition p s' in (String c before, after)
  end.

(** [s.rpartition(sep)[2]]: the text after the last separator. *)
Fixpoint after_last (p : ascii -> bool) (s : string) : string :=
  match s with
  | EmptyString => EmptyString
  | String c s' =>
      match partition p s' with
      | (_, None) => if p c then s' else String c (after_last p s')
      | (_, Some _) => after_last p s'
      end
  end.

Definition starts_with_alpha (s : string) : bool :=
  match s with
  | EmptyString => false
  | String c _ => is_alpha c
  end.

(** [c in s]. *)
Definition contains (c : ascii) (s : string) : bool :=
  match partition (Ascii.eqb c) s with
  | (_, Some _) => true
  | (_, None) => false
  end.

(** The [hostname] property: the text after the last [@], between the
    brackets if there is one and up to the first [:] if not; lowered up to
    a [%], after which the zone of a scoped address is kept as written. *)
Definition hostname_of (netloc : string) : option string :=
  let hostinfo := after_last (Ascii.eqb "@") netloc in
  let host :=
    match partition (Ascii.eqb "[") hostinfo with
    | (_, Some bracketed) => fst (partition (Ascii.eqb "]") bracketed)
    | (_, None) => fst (partition (Ascii.eqb ":") hostinfo)
    end in
  if String.eqb host "" then None
  else
    match partition (Ascii.eqb "%") host with
    | (name, Some zone) => Some (lower name +:+ String "%" zone)
    | (name, None) => Some (lower name)
    end.

Definition urlparse (url : string) : Result ParseResult :=
  let '(sch, rest) :=
    match partition (Ascii.eqb ":") url with
    | (before, Some after) =>
        if starts_with_alpha before && all_chars is_scheme_char before
        then (lower before, after)
        else (EmptyString, url)
    | (_, None) => (EmptyString, url)
    end in
  let netloc :=
    match rest with
    | String "/" (String "/" rest') =>
        fst (partition (fun c => Ascii.eqb c "/" || Ascii.eqb c "?" || Ascii.eqb c "#") rest')
    | _ => EmptyString
    end in
  if xorb (contains "[" netloc) (contains "]" netloc)
  then Raise (ValueError "Invalid IPv6 URL")
  else Ok (mkParseResult sch (hostname_of netloc)).

End UrlParse.

(** ** Vocabulary of the statements *)

(** A configuration the fetcher can work with: a positive chunk size, and a
    pause that is unset or not negative. *)
Definition well_configured (f : RequestsFetcher) : Prop :=
  0 < chunk_size f /\
  match sleep_before_round f with
  | None => True
  | Some secs => 0 <= secs
  end.

(** The length of a chunk, as [len(data)]. *)
Definition len (data : list byte) : Z := Z.of_nat (length data).

(** The value of [bytes_received] while the generator is suspended; it is
    zero before the first round. *)
Definition received (g : Generator) : Z :=
  match g_state g with
  | Suspended bytes_received => bytes_received
  | _ => 0
  end.

(** Every chunk has the size the round asked for, which is
    [min(chunk_size, required_length - bytes_received)] with
    [bytes_received] the bytes of the chunks before it. *)
Fixpoint follows_schedule (chunk_size required_length bytes_received : Z)
    (chunks : list (list byte)) : bool :=
  match chunks with
  | [] => true
  | data :: rest =>
      (len data =? Z.min chunk_size (required_length - bytes_received))
      && follows_schedule chunk_size required_length (bytes_received + len data) rest
  end.

(** Every session named by the pool is an object of the heap, and no two keys
    name the same object. *)
Definition pool_wf (st : State) : Prop :=
  (forall k s, _sessions (self st) !! k = Some s -> (s < length (heap st))%nat) /\
  (forall k1 k2 s, _sessions (self st) !! k1 = Some s ->
                   _sessions (self st) !! k2 = Some s -> k1 = k2).

(** The state of a new fetcher: an empty pool, nothing on the heap, no
    network operation issued. *)
Definition initial_state : State := mkState __init__ [] [].

(** The text has a [+] in it. *)
Fixpoint has_plus (s : string) : bool :=
  match s with
  | EmptyString => false
  | String c s' => Ascii.eqb c "+" || has_plus s'
  end.

(** A fetcher that uses the small URL parser above, and the inputs of the
    runs shown below. *)
Module Concrete.

Definition fetch := fetch UrlParse.urlparse "0.19.0" "python-requests/2.25.1".
Definition _get_session := _get_session UrlParse.urlparse "0.19.0" "python-requests/2.25.1".
Definition surfaces := surfaces UrlParse.urlparse "0.19.0" "python-requests/2.25.1".

(** A new fetcher with its chunk size set to [n]. *)
Definition with_chunk_size (n : Z) : State :=
  mkState (mkRequestsFetcher ∅ 4 n None) [] [].

Definition url : string := "http://example.com/targets.json".

(** Ten bytes, written by the server in pieces of three and seven. *)
Definition ten_bytes : list (list byte) :=
  [["0"; "1"; "2"]; ["3"; "4"; "5"; "6"; "7"; "8"; "9"]]%byte.

(** A response [200 OK] with the given body. *)
Definition ok (body : list WireEvent) : GetOutcome := Responds 200 "OK" url body.

(** The unstarted stream over that response. *)
Definition stream (required_length : Z) (body : list WireEvent) : Generator :=
  _chunks (mkResponse 200 "OK" url body [] 0) required_length.

(** The state a call for [url] leaves. *)
Definition fetched (st : State) (required_length : Z) (srv : GetOutcome) : State :=
  snd (fetch st url required_length srv).

(** The server stalls: the pending read times out. *)
Definition stalls : WireEvent := Raises (ReadTimeoutError "Read timed out.").

Definition connection_error : exn :=
  LibraryError "requests.exceptions.ConnectionError" "Connection refused".

Definition invalid_schema : exn :=
  LibraryError "requests.exceptions.InvalidSchema" "No connection adapters were found".

End Concrete.

(** The bytes of the body that reach the client: those written before the
    body ends or a read fails. *)
Fixpoint wire_bytes (w : list WireEvent) : list byte :=
  match w with
  | [] => []
  | Data bs :: w' => bs ++ wire_bytes w'
  | Raises _ :: _ => []
  end.

(** The headers of a session as [_get_session] leaves a new one: the two
    it sets, and for the others the defaults of [requests]. *)
Definition tuf_session (tuf_version default_user_agent : string) (s : Session) : Prop :=
  headers s !! "Accept-Encoding" = Some "identity"
  /\ headers s !! "User-Agent" = Some ("tuf/" +:+ tuf_version +:+ " " +:+ default_user_agent)
  /\ forall k, k <> "Accept-Encoding" -> k <> "User-Agent" ->
               headers s !! k = headers (requests_Session default_user_agent) !! k.

(** The session object a miss of the pool leaves on the heap: a new
    [requests.Session] after [session.headers.update]. *)
Definition new_tuf_session (tuf_version default_user_agent : string) : Session :=
  mkSession (<["User-Agent" := "tuf/" +:+ tuf_version +:+ " " +:+ default_user_agent]>
             (<["Accept-Encoding" := "identity"]>
              (headers (requests_Session default_user_agent)))).

(** Further inputs of the runs shown below. *)
Module Examples.

Definition run_calls := run_calls UrlParse.urlparse "0.19.0" "python-requests/2.25.1".

(** Twenty bytes in one write. *)
Definition twenty_bytes : list byte :=
  ["a"; "b"; "c"; "d"; "e"; "f"; "g"; "h"; "i"; "j";
   "k"; "l"; "m"; "n"; "o"; "p"; "q"; "r"; "s"; "t"]%byte.

Definition broken : exn :=
  LibraryError "urllib3.exceptions.ProtocolError" "Connection broken".

(** Calls to two hosts, the second of them refused. *)
Definition two_hosts : list Call :=
  [mkCall "https://example.com/1.root.json" 100
     (Responds 200 "OK" "https://example.com/1.root.json" (map Data Concrete.ten_bytes));
   mkCall "https://mirror.example.org/1.root.json" 100
     (ConnFails Concrete.connection_error);
   mkCall "https://example.com/timestamp.json" 100
     (Responds 404 "Not Found" "https://example.com/timestamp.json" [])].

End Examples.

(** * Properties *)

(** ** Reading from the wire *)

Lemma read_upto_length n w d w' :
  read_upto n w = (ReadData d, w') -> (length d <= n)%nat.
Proof.
  revert n d w'. induction w as [|ev w IH]; intros n d w' H.
  - destruct n; simpl in H; inversion H; simpl; lia.
  - destruct n as [|n]; [simpl in H; inversion H; simpl; lia|].
    destruct ev as [bs|e]; cbn [read_upto] in H; [|discriminate].
    destruct (length bs <=? S n)%nat eqn:Hle.
    + apply Nat.leb_le in Hle.
      destruct (read_upto (S n - length bs) w) as [[r|e] w''] eqn:Hr; [|discriminate].
      inversion H; subst. apply IH in Hr. rewrite length_app. lia.
    + inversion H; subst. rewrite length_take. lia.
Qed.

Lemma raw_read_length amt w d w' :
  0 <= amt -> raw_read amt w = (ReadData d, w') -> len d <= amt.
Proof.
  intros Hamt H. unfold raw_read in H.
  destruct (amt =? 0) eqn:H0.
  - inversion H; subst. unfold len; simpl. lia.
  - apply Z.eqb_neq in H0.
    destruct (amt =? -1) eqn:H1; [apply Z.eqb_eq in H1; lia|].
    destruct (amt <? 0) eqn:Hneg; [apply Z.ltb_lt in Hneg; lia|].
    apply read_upto_length in H. unfold len. lia.
Qed.

(** While the wire holds [n] bytes or more before anything else, a read of
    [n] bytes returns exactly the next [n] bytes and leaves the others. *)
Lemma read_upto_data n segs tail :
  (n <= length (concat segs))%nat ->
  exists segs',
    read_upto n (map Data segs ++ tail)
    = (ReadData (take n (concat segs)), map Data segs' ++ tail)
    /\ concat segs' = drop n (concat segs).
Proof.
  revert n. induction segs as [|bs segs IH]; intros n Hn.
  - simpl in Hn. assert (n = O) by lia. subst. exists []. simpl.
    destruct tail; auto.
  - destruct n as [|n].
    { exists (bs :: segs). split; [reflexivity|]. now rewrite drop_0. }
    cbn [map app read_upto concat]. simpl in Hn. rewrite length_app in Hn.
    destruct (length bs <=? S n)%nat eqn:Hle.
    + apply Nat.leb_le in Hle.
      destruct (IH (S n - length bs)%nat) as [segs' [Hr Hc]]; [lia|].
      rewrite Hr. exists segs'. split.
      * f_equal. f_equal. rewrite take_app. rewrite (take_ge bs) by lia. reflexivity.
      * rewrite Hc. rewrite drop_app. rewrite (drop_ge bs) by lia. reflexivity.
    + apply Nat.leb_gt in Hle. exists (drop (S n) bs :: segs). split.
      * cbn [map app]. f_equal. f_equal. rewrite take_app.
        replace (S n - length bs)%nat with O by lia. rewrite take_0, app_nil_r.
        reflexivity.
      * cbn [concat]. rewrite drop_app.
        replace (S n - length bs)%nat with O by lia. now rewrite drop_0.
Qed.

(** A read that asks for more than the body still holds returns what is
    left, and the wire is at its end. *)
Lemma read_upto_eof n segs :
  (length (concat segs) < n)%nat ->
  read_upto n (map Data segs) = (ReadData (concat segs), []).
Proof.
  revert n. induction segs as [|bs segs IH]; intros n Hn.
  - destruct n; [simpl in Hn; lia|reflexivity].
  - destruct n as [|n]; [lia|].
    cbn [map read_upto concat]. simpl in Hn. rewrite length_app in Hn.
    destruct (length bs <=? S n)%nat eqn:Hle.
    + rewrite IH by lia. reflexivity.
    + apply Nat.leb_gt in Hle. lia.
Qed.

(** A read that asks for more than has arrived before an error meets the
    error. *)
Lemma read_upto_raises n segs e tail :
  (length (concat segs) < n)%nat ->
  read_upto n (map Data segs ++ Raises e :: tail) = (ReadRaises e, tail).
Proof.
  revert n. induction segs as [|bs segs IH]; intros n Hn.
  - destruct n; [simpl in Hn; lia|reflexivity].
  - destruct n as [|n]; [lia|].
    cbn [map app read_upto concat]. simpl in Hn. rewrite length_app in Hn.
    destruct (length bs <=? S n)%nat eqn:Hle.
    + rewrite IH by lia. reflexivity.
    + apply Nat.leb_gt in Hle. lia.
Qed.

(** ** One pull of the generator *)

Lemma total_length_cons d chunks :
  total_length (d :: chunks) = len d + total_length chunks.
Proof. unfold total_length, len. simpl. rewrite length_app. lia. Qed.

Lemma sleep_if_set_ok f : well_configured f -> sleep_if_set f = Ok tt.
Proof.
  intros [_ Hs]. unfold sleep_if_set, time_sleep.
  destruct (sleep_before_round f) as [secs|]; [|reflexivity].
  destruct (secs =? 0); [reflexivity|].
  destruct (secs <? 0) eqn:Hneg; [apply Z.ltb_lt in Hneg; lia|reflexivity].
Qed.

Lemma sleep_if_set_raises f e :
  sleep_if_set f = Raise e -> e = ValueError "sleep length must be non-negative".
Proof.
  unfold sleep_if_set, time_sleep.
  destruct (sleep_before_round f) as [secs|]; [|discriminate].
  destruct (secs =? 0); [discriminate|].
  destruct (secs <? 0); [|discriminate]. now inversion 1.
Qed.

(** The cases of one round, read off the definition. *)
Ltac round_cases H :=
  unfold _chunks_round, response_read in H;
  let u := fresh "u" in
  let e := fresh "e" in
  let d := fresh "d" in
  let w := fresh "w" in
  let Hsleep := fresh "Hsleep" in
  let Hread := fresh "Hread" in
  destruct (sleep_if_set _) as [u|e] eqn:Hsleep;
  [ destruct (raw_read _ _) as [[d|e] w] eqn:Hread;
    [ destruct d | ] | ];
  inversion H; subst; clear H.

(** The cases of one [next]: the state the generator was in, then the
    cases of the round when one is run. *)
Ltac next_cases H :=
  unfold gen_next in H;
  let br := fresh "br" in
  let Hst := fresh "Hst" in
  let Hge := fresh "Hge" in
  destruct (g_state _) as [|br|] eqn:Hst;
  [ round_cases H
  | destruct (br >=? _) eqn:Hge;
    [ inversion H; subst; clear H | round_cases H ]
  | inversion H; subst; clear H ].

(** A pull that yields leaves the generator suspended, the response open,
    and has asked [raw.read] for one more amount. *)
Lemma gen_next_yield f g d g' :
  gen_next f g = (Yield d, g') ->
  d <> []
  /\ g_state g' = Suspended (received g + len d)
  /\ g_required_length g' = g_required_length g
  /\ closed (g_response g') = closed (g_response g)
  /\ reads (g_response g')
     = reads (g_response g) ++ [Z.min (chunk_size f) (g_required_length g - received g)]
  /\ raw_read (Z.min (chunk_size f) (g_required_length g - received g)) (raw (g_response g))
     = (ReadData d, raw (g_response g'))
  /\ (g_state g = Created \/ received g < g_required_length g).
Proof.
  intros H. unfold received. next_cases H; cbn; rewrite ?Hst;
    (split; [discriminate|]); repeat split; auto.
  rewrite Z.geb_leb in Hge. apply Z.leb_gt in Hge. right; lia.
Qed.

(** A pull that does not yield finishes the generator.  Unless it was
    finished before, the response has then been closed once more. *)
Lemma gen_next_end f g p g' :
  gen_next f g = (p, g') ->
  (forall d, p <> Yield d) ->
  g_state g' = Finished
  /\ g_required_length g' = g_required_length g
  /\ (g_state g <> Finished -> closed (g_response g') = S (closed (g_response g))).
Proof.
  intros H Hp. next_cases H; cbn; try (exfalso; eapply Hp; reflexivity);
    repeat split; auto; congruence.
Qed.

(** ** Whole runs of a consumer *)

(** Unfolds one step of [consume] in hypothesis [H], naming the pull. *)
Ltac consume_step H p g1 Hnext :=
  cbn [consume] in H;
  destruct (gen_next _ _) as [p g1] eqn:Hnext;
  destruct p as [?d| |?e].

Lemma consume_chunks_nonempty n f g chunks o g' :
  consume n f g = (chunks, o, g') -> Forall (fun d => d <> []) chunks.
Proof.
  revert g chunks o g'. induction n as [|n IH]; intros g chunks o g' H.
  - inversion H. constructor.
  - consume_step H p g1 Hnext.
    + destruct (consume n f g1) as [[cs o1] g2] eqn:Hrest. inversion H; subst.
      constructor; [|eapply IH; eauto].
      now apply gen_next_yield in Hnext.
    + inversion H. constructor.
    + inversion H. constructor.
Qed.

(** Once the body of the generator has been entered, every way a consumer
    can end closes the response once more and leaves the generator
    finished. *)
Lemma consume_closes n f g chunks o g' :
  g_state g <> Finished ->
  (0 < n)%nat \/ g_state g <> Created ->
  consume n f g = (chunks, o, g') ->
  g_state g' = Finished /\ closed (g_response g') = S (closed (g_response g)).
Proof.
  revert g chunks o g'. induction n as [|n IH]; intros g chunks o g' Hnf Hstarted H.
  - destruct Hstarted as [Hn|Hs]; [lia|].
    cbn in H. inversion H; subst. unfold gen_close.
    destruct (g_state g); [congruence| |congruence]. split; reflexivity.
  - consume_step H p g1 Hnext.
    + destruct (consume n f g1) as [[cs o1] g2] eqn:Hrest. inversion H; subst.
      apply gen_next_yield in Hnext as (_ & Hs & _ & Hc & _).
      rewrite <- Hc. eapply IH; eauto; rewrite Hs; [discriminate|right; discriminate].
    + inversion H; subst.
      eapply gen_next_end in Hnext as (? & _ & ?); [|discriminate]. auto.
    + inversion H; subst.
      eapply gen_next_end in Hnext as (? & _ & ?); [|discriminate]. auto.
Qed.

(** A finished generator stays as it is under [next] and [close]. *)
Lemma finished_is_final f g :
  g_state g = Finished ->
  gen_next f g = (StopIteration, g) /\ gen_close g = g.
Proof. intros H. unfold gen_next, gen_close. now rewrite H. Qed.

(** The running total never passes the required length. *)
Lemma consume_bound n f g chunks o g' :
  0 <= chunk_size f ->
  received g <= g_required_length g ->
  consume n f g = (chunks, o, g') ->
  received g + total_length chunks <= g_required_length g.
Proof.
  revert g chunks o g'. induction n as [|n IH]; intros g chunks o g' Hcs Hbr H.
  - inversion H. unfold total_length. simpl. lia.
  - consume_step H p g1 Hnext; try (inversion H; unfold total_length; simpl; lia).
    destruct (consume n f g1) as [[cs o1] g2] eqn:Hrest. inversion H; subst.
    apply gen_next_yield in Hnext as (_ & Hs & HL & _ & _ & Hread & _).
    apply raw_read_length in Hread; [|lia].
    assert (Hr1 : received g1 = received g + len d) by (unfold received at 1; now rewrite Hs).
    specialize (IH g1 cs o g' Hcs). rewrite Hr1, HL in IH.
    rewrite total_length_cons. specialize (IH ltac:(lia) Hrest). lia.
Qed.

(** When the chunks handed out add up to the required length, there has
    been one read per chunk and none after the last, and a consumer that
    asks again is told the stream has ended. *)
Lemma consume_stops_at_length n f g chunks o g' :
  g_state g <> Finished ->
  (g_state g = Created -> 0 < g_required_length g) ->
  0 <= chunk_size f ->
  received g <= g_required_length g ->
  consume n f g = (chunks, o, g') ->
  received g + total_length chunks = g_required_length g ->
  length (reads (g_response g')) = (length (reads (g_response g)) + length chunks)%nat
  /\ ((length chunks < n)%nat -> o = Exhausted).
Proof.
  revert g chunks o g'.
  induction n as [|n IH]; intros g chunks o g' Hnf Hcr Hcs Hbr H Htot.
  - inversion H; subst. split; [|simpl; lia].
    unfold gen_close. destruct (g_state g); simpl; lia.
  - pose proof (consume_bound _ _ _ _ _ _ Hcs Hbr H) as Hb.
    consume_step H p g1 Hnext.
    + destruct (consume n f g1) as [[cs o1] g2] eqn:Hrest. inversion H; subst.
      apply gen_next_yield in Hnext as (_ & Hs & HL & _ & Hreads & Hread & _).
      apply raw_read_length in Hread; [|lia].
      assert (Hr1 : received g1 = received g + len d) by (unfold received at 1; now rewrite Hs).
      rewrite total_length_cons in Htot.
      destruct (IH g1 cs o g') as [Hlen Hex]; auto.
      * rewrite Hs. discriminate.
      * rewrite Hs. discriminate.
      * rewrite Hr1, HL. lia.
      * rewrite Hr1, HL. lia.
      * rewrite Hlen, Hreads, length_app. simpl. split; [lia|]. intros; apply Hex; lia.
    + inversion H; subst. unfold total_length in Htot; simpl in Htot.
      split; [|reflexivity]. simpl.
      next_cases Hnext; cbn.
      * specialize (Hcr eq_refl). unfold received in Htot. rewrite Hst in Htot. lia.
      * lia.
      * unfold received in Htot. rewrite Hst in Htot.
        rewrite Z.geb_leb in Hge. apply Z.leb_gt in Hge. lia.
      * congruence.
    + inversion H; subst. unfold total_length in Htot; simpl in Htot. exfalso.
      next_cases Hnext.
      * specialize (Hcr eq_refl). unfold received in Htot. rewrite Hst in Htot. lia.
      * specialize (Hcr eq_refl). unfold received in Htot. rewrite Hst in Htot. lia.
      * unfold received in Htot. rewrite Hst in Htot.
        rewrite Z.geb_leb in Hge. apply Z.leb_gt in Hge. lia.
      * unfold received in Htot. rewrite Hst in Htot.
        rewrite Z.geb_leb in Hge. apply Z.leb_gt in Hge. lia.
Qed.

(** ** Reads of a body that arrives as data *)

Lemma raw_read_data amt segs tail :
  0 < amt -> amt <= len (concat segs) ->
  exists segs',
    raw_read amt (map Data segs ++ tail)
    = (ReadData (take (Z.to_nat amt) (concat segs)), map Data segs' ++ tail)
    /\ concat segs' = drop (Z.to_nat amt) (concat segs).
Proof.
  intros Hpos Hle. unfold raw_read, len in *.
  destruct (amt =? 0) eqn:H0; [apply Z.eqb_eq in H0; lia|].
  destruct (amt =? -1) eqn:H1; [apply Z.eqb_eq in H1; lia|].
  destruct (amt <? 0) eqn:Hneg; [apply Z.ltb_lt in Hneg; lia|].
  apply read_upto_data. lia.
Qed.

Lemma raw_read_eof amt segs :
  len (concat segs) < amt ->
  raw_read amt (map Data segs) = (ReadData (concat segs), []).
Proof.
  intros Hlt. unfold raw_read, len in *.
  destruct (amt =? 0) eqn:H0; [apply Z.eqb_eq in H0; lia|].
  destruct (amt =? -1) eqn:H1; [apply Z.eqb_eq in H1; lia|].
  destruct (amt <? 0) eqn:Hneg; [apply Z.ltb_lt in Hneg; lia|].
  apply read_upto_eof. lia.
Qed.

Lemma raw_read_raises amt segs e tail :
  len (concat segs) < amt ->
  raw_read amt (map Data segs ++ Raises e :: tail) = (ReadRaises e, tail).
Proof.
  intros Hlt. unfold raw_read, len in *.
  destruct (amt =? 0) eqn:H0; [apply Z.eqb_eq in H0; lia|].
  destruct (amt =? -1) eqn:H1; [apply Z.eqb_eq in H1; lia|].
  destruct (amt <? 0) eqn:Hneg; [apply Z.ltb_lt in Hneg; lia|].
  apply read_upto_raises. lia.
Qed.

(** A generator that is about to run a round. *)
Lemma gen_next_round f g :
  g_state g = Created \/ (g_state g <> Finished /\ received g < g_required_length g) ->
  gen_next f g = _chunks_round f (received g) g.
Proof.
  unfold gen_next, received. intros [H|[Hnf H]].
  - now rewrite H.
  - destruct (g_state g) as [|br|]; [reflexivity| |congruence].
    destruct (br >=? g_required_length g) eqn:Hge; [|reflexivity].
    rewrite Z.geb_leb in Hge. apply Z.leb_le in Hge. lia.
Qed.

(** The round finds the bytes it asks for: it yields exactly those. *)
Lemma gen_next_full f g segs tail amt :
  sleep_if_set f = Ok tt ->
  g_state g = Created \/ (g_state g <> Finished /\ received g < g_required_length g) ->
  raw (g_response g) = map Data segs ++ tail ->
  amt = Z.min (chunk_size f) (g_required_length g - received g) ->
  0 < amt -> amt <= len (concat segs) ->
  exists g1 segs',
    gen_next f g = (Yield (take (Z.to_nat amt) (concat segs)), g1)
    /\ raw (g_response g1) = map Data segs' ++ tail
    /\ concat segs' = drop (Z.to_nat amt) (concat segs).
Proof.
  intros Hsleep Hst Hraw Hamt Hpos Hle.
  rewrite gen_next_round by assumption.
  unfold _chunks_round, response_read. rewrite Hsleep, Hraw, <- Hamt.
  destruct (raw_read_data amt segs tail Hpos Hle) as (segs' & Hr & Hc).
  rewrite Hr.
  destruct (take (Z.to_nat amt) (concat segs)) eqn:Htake.
  - apply (f_equal length) in Htake. rewrite length_take in Htake.
    unfold len in Hle. simpl in Htake. lia.
  - eexists _, segs'. split; [reflexivity|]. split; [reflexivity|assumption].
Qed.

(** The round asks for more than is left before the end of the body: it
    yields what is left, or stops when nothing is. *)
Lemma gen_next_eof f g segs :
  sleep_if_set f = Ok tt ->
  g_state g = Created \/ (g_state g <> Finished /\ received g < g_required_length g) ->
  raw (g_response g) = map Data segs ->
  len (concat segs) < Z.min (chunk_size f) (g_required_length g - received g) ->
  exists g1,
    gen_next f g = (match concat segs with [] => StopIteration | _ => Yield (concat segs) end, g1)
    /\ raw (g_response g1) = [].
Proof.
  intros Hsleep Hst Hraw Hlt.
  rewrite gen_next_round by assumption.
  unfold _chunks_round, response_read. rewrite Hsleep, Hraw.
  rewrite raw_read_eof by assumption.
  destruct (concat segs); eexists; split; reflexivity.
Qed.

(** The round asks for more than arrives before an error: the error is
    raised through the [except] clause. *)
Lemma gen_next_raises f g segs e tail :
  sleep_if_set f = Ok tt ->
  g_state g = Created \/ (g_state g <> Finished /\ received g < g_required_length g) ->
  raw (g_response g) = map Data segs ++ Raises e :: tail ->
  len (concat segs) < Z.min (chunk_size f) (g_required_length g - received g) ->
  exists g1, gen_next f g = (PullRaises (_chunks_except e), g1).
Proof.
  intros Hsleep Hst Hraw Hlt.
  rewrite gen_next_round by assumption.
  unfold _chunks_round, response_read. rewrite Hsleep, Hraw.
  rewrite raw_read_raises by assumption.
  eexists; reflexivity.
Qed.

Lemma len_take_le (n : Z) (l : list byte) :
  0 <= n -> n <= len l -> len (take (Z.to_nat n) l) = n.
Proof. unfold len. intros. rewrite length_take. lia. Qed.

Lemma len_drop (n : Z) (l : list byte) :
  0 <= n -> n <= len l -> len (drop (Z.to_nat n) l) = len l - n.
Proof. unfold len. intros. rewrite length_drop. lia. Qed.

(** A state in which the next pull runs a round, from what is known about
    the bytes still needed. *)
Lemma round_ready g :
  g_state g <> Finished -> received g < g_required_length g ->
  g_state g = Created \/ (g_state g <> Finished /\ received g < g_required_length g).
Proof. auto. Qed.

(** The body ends before the required length: the bytes that were sent are
    handed out, then the stream ends without an error. *)
Lemma consume_early_eof n f g segs :
  well_configured f ->
  g_state g <> Finished ->
  raw (g_response g) = map Data segs ->
  received g + len (concat segs) < g_required_length g ->
  (length (concat segs) < n)%nat ->
  exists chunks g',
    consume n f g = (chunks, Exhausted, g') /\ concat chunks = concat segs.
Proof.
  intros Hwf. pose proof (sleep_if_set_ok f Hwf) as Hsleep. destruct Hwf as [Hcs _].
  revert g segs. induction n as [|n IH]; intros g segs Hnf Hraw Hshort Hn; [lia|].
  assert (Hlen : 0 <= len (concat segs)) by (unfold len; lia).
  set (amt := Z.min (chunk_size f) (g_required_length g - received g)).
  assert (Hready := round_ready g Hnf ltac:(lia)).
  destruct (Z_le_gt_dec amt (len (concat segs))) as [Hle|Hgt].
  - destruct (gen_next_full f g segs [] amt) as (g1 & segs' & Hnext & Hraw1 & Hc);
      auto; try (rewrite app_nil_r; assumption); [unfold amt; lia|].
    pose proof (gen_next_yield _ _ _ _ Hnext) as (_ & Hs & HL & _).
    rewrite len_take_le in Hs by (unfold amt in *; lia).
    assert (Hr1 : received g1 = received g + amt) by (unfold received at 1; now rewrite Hs).
    rewrite app_nil_r in Hraw1.
    destruct (IH g1 segs') as (chunks & g' & Hrun & Hcat).
    + rewrite Hs. discriminate.
    + assumption.
    + rewrite Hr1, HL, Hc, len_drop by (unfold amt in *; lia). lia.
    + rewrite Hc, length_drop. unfold amt, len in *. lia.
    + exists (take (Z.to_nat amt) (concat segs) :: chunks), g'.
      cbn [consume]. rewrite Hnext, Hrun. split; [reflexivity|].
      cbn [concat]. rewrite Hcat, Hc. apply take_drop.
  - destruct (gen_next_eof f g segs) as (g1 & Hnext & Hraw1); auto; [fold amt; lia|].
    destruct (concat segs) as [|b bs] eqn:HB.
    + exists [], g1. cbn [consume]. rewrite Hnext. split; reflexivity.
    + pose proof (gen_next_yield _ _ _ _ Hnext) as (_ & Hs & HL & _).
      assert (Hr1 : received g1 = received g + len (b :: bs))
        by (unfold received at 1; now rewrite Hs).
      destruct (IH g1 []) as (chunks & g' & Hrun & Hcat).
      * rewrite Hs. discriminate.
      * assumption.
      * rewrite Hr1, HL. unfold len at 2. simpl. lia.
      * simpl in *. lia.
      * exists ((b :: bs) :: chunks), g'. cbn [consume]. rewrite Hnext, Hrun.
        split; [reflexivity|]. cbn [concat]. rewrite Hcat. simpl. now rewrite app_nil_r.
Qed.

(** The body holds exactly the bytes still needed: they are handed out in
    chunks of the scheduled sizes, with one read per chunk, and the stream
    then ends without an error whatever follows on the wire. *)
Lemma consume_exact n f g segs tail :
  well_configured f ->
  g_state g <> Finished ->
  raw (g_response g) = map Data segs ++ tail ->
  received g + len (concat segs) = g_required_length g ->
  (length (concat segs) < n)%nat ->
  exists chunks g',
    consume n f g = (chunks, Exhausted, g')
    /\ concat chunks = concat segs
    /\ follows_schedule (chunk_size f) (g_required_length g) (received g) chunks = true
    /\ reads (g_response g')
       = reads (g_response g)
         ++ match g_state g with
            | Created => if g_required_length g =? 0 then [0] else map len chunks
            | _ => map len chunks
            end.
Proof.
  intros Hwf. pose proof (sleep_if_set_ok f Hwf) as Hsleep. destruct Hwf as [Hcs _].
  revert g segs. induction n as [|n IH]; intros g segs Hnf Hraw Hexact Hn; [lia|].
  assert (Hlen : 0 <= len (concat segs)) by (unfold len; lia).
  destruct (Z.eq_dec (len (concat segs)) 0) as [Hz|Hnz].
  - (* nothing is needed any more *)
    assert (HB : concat segs = []).
    { destruct (concat segs); [reflexivity|]. unfold len in Hz. simpl in Hz. lia. }
    rewrite HB. cbn [consume]. unfold gen_next. unfold received in Hexact.
    destruct (g_state g) as [|br|] eqn:Hst; [| |congruence].
    + (* unstarted, required length zero: one read of zero bytes *)
      unfold _chunks_round, response_read. rewrite Hsleep.
      replace (g_required_length g - 0) with 0 by lia.
      rewrite Z.min_r by lia. cbn.
      eexists [], _. split; [reflexivity|]. repeat split.
      replace (g_required_length g =? 0) with true by (symmetry; apply Z.eqb_eq; lia).
      reflexivity.
    + replace (br >=? g_required_length g) with true
        by (symmetry; rewrite Z.geb_leb; apply Z.leb_le; lia).
      eexists [], _. split; [reflexivity|]. repeat split. cbn. now rewrite app_nil_r.
  - set (amt := Z.min (chunk_size f) (g_required_length g - received g)).
    assert (Hready := round_ready g Hnf ltac:(lia)).
    destruct (gen_next_full f g segs tail amt) as (g1 & segs' & Hnext & Hraw1 & Hc);
      auto; try (unfold amt; lia).
    pose proof (gen_next_yield _ _ _ _ Hnext) as (_ & Hs & HL & _ & Hreads & _).
    assert (Hd : len (take (Z.to_nat amt) (concat segs)) = amt)
      by (apply len_take_le; unfold amt; lia).
    rewrite Hd in Hs.
    assert (Hr1 : received g1 = received g + amt) by (unfold received at 1; now rewrite Hs).
    destruct (IH g1 segs') as (chunks & g' & Hrun & Hcat & Hsched & Hrd).
    + rewrite Hs. discriminate.
    + assumption.
    + rewrite Hr1, HL, Hc, len_drop by (unfold amt; lia). lia.
    + rewrite Hc, length_drop. unfold amt, len in *. lia.
    + exists (take (Z.to_nat amt) (concat segs) :: chunks), g'.
      cbn [consume]. rewrite Hnext, Hrun. split; [reflexivity|]. split; [|split].
      * cbn [concat]. rewrite Hcat, Hc. apply take_drop.
      * cbn [follows_schedule]. rewrite Hd. fold amt. rewrite Z.eqb_refl.
        rewrite <- Hr1, <- HL. exact Hsched.
      * rewrite Hrd, Hreads, Hs. fold amt. rewrite <- app_assoc. f_equal.
        cbn [map app]. rewrite Hd.
        destruct (g_state g) eqn:Hst; [|reflexivity|reflexivity].
        replace (g_required_length g =? 0) with false; [reflexivity|].
        symmetry. apply Z.eqb_neq. unfold received in Hexact. rewrite Hst in Hexact. lia.
Qed.

(** The body fails before the required length has arrived: the chunks
    handed out before are full ones, fewer than a chunk of the bytes sent
    is lost with the failing read, and the consumer gets the exception as
    the [except] clause leaves it. *)
Lemma consume_read_error n f g segs e tail :
  well_configured f ->
  g_state g <> Finished ->
  raw (g_response g) = map Data segs ++ Raises e :: tail ->
  received g + len (concat segs) < g_required_length g ->
  (length (concat segs) < n)%nat ->
  exists chunks lost g',
    consume n f g = (chunks, Failed (_chunks_except e), g')
    /\ concat segs = concat chunks ++ lost
    /\ len lost < chunk_size f
    /\ Forall (fun d => len d = chunk_size f) chunks.
Proof.
  intros Hwf. pose proof (sleep_if_set_ok f Hwf) as Hsleep. destruct Hwf as [Hcs _].
  revert g segs. induction n as [|n IH]; intros g segs Hnf Hraw Hshort Hn; [lia|].
  assert (Hlen : 0 <= len (concat segs)) by (unfold len; lia).
  set (amt := Z.min (chunk_size f) (g_required_length g - received g)).
  assert (Hready := round_ready g Hnf ltac:(lia)).
  destruct (Z_le_gt_dec amt (len (concat segs))) as [Hle|Hgt].
  - assert (Hamt : amt = chunk_size f) by (unfold amt in *; lia).
    destruct (gen_next_full f g segs (Raises e :: tail) amt)
      as (g1 & segs' & Hnext & Hraw1 & Hc); auto; try lia.
    pose proof (gen_next_yield _ _ _ _ Hnext) as (_ & Hs & HL & _).
    assert (Hd : len (take (Z.to_nat amt) (concat segs)) = amt)
      by (apply len_take_le; lia).
    rewrite Hd in Hs.
    assert (Hr1 : received g1 = received g + amt) by (unfold received at 1; now rewrite Hs).
    destruct (IH g1 segs') as (chunks & lost & g' & Hrun & Hcat & Hlost & Hall).
    + rewrite Hs. discriminate.
    + assumption.
    + rewrite Hr1, HL, Hc, len_drop by lia. lia.
    + rewrite Hc, length_drop. unfold len in *. lia.
    + exists (take (Z.to_nat amt) (concat segs) :: chunks), lost, g'.
      cbn [consume]. rewrite Hnext, Hrun. split; [reflexivity|]. split; [|split].
      * cbn [concat]. rewrite <- app_assoc, <- Hcat, Hc. symmetry. apply take_drop.
      * assumption.
      * constructor; [congruence|assumption].
  - destruct (gen_next_raises f g segs e tail) as (g1 & Hnext); auto; [fold amt; lia|].
    exists [], (concat segs), g1. cbn [consume]. rewrite Hnext.
    split; [reflexivity|]. split; [reflexivity|]. split; [unfold amt in *; lia|constructor].
Qed.

(** ** Where a failure of the stream comes from *)









Lemma _chunks_except_idem e : _chunks_except (_chunks_except e) = _chunks_except e.
Proof. destruct e; reflexivity. Qed.

(** ** The session pool and [fetch] *)

Lemma raise_for_status_failure r :
  status_indicates_failure (status_code r) = true ->
  raise_for_status r = Raise (HTTPError (http_error_msg r) (status_code r)).
Proof.
  unfold status_indicates_failure, raise_for_status, http_error_msg.
  intros H. apply andb_true_iff in H as [H4 H6]. rewrite H4. cbn [andb].
  destruct (status_code r <? 500) eqn:H5; [reflexivity|].
  rewrite H6. replace (500 <=? status_code r) with true; [reflexivity|].
  symmetry. apply Z.leb_le. apply Z.ltb_ge in H5. lia.
Qed.

Lemma raise_for_status_success r :
  status_indicates_failure (status_code r) = false ->
  raise_for_status r = Ok tt.
Proof.
  unfold status_indicates_failure, raise_for_status. intros H.
  destruct (400 <=? status_code r) eqn:H4; cbn [andb] in *.
  - rewrite H. rewrite andb_false_r.
    destruct (status_code r <? 500) eqn:H5; [|reflexivity].
    apply Z.ltb_lt in H5. apply Z.ltb_ge in H. lia.
  - replace (500 <=? status_code r) with false; [reflexivity|].
    symmetry. apply Z.leb_gt. apply Z.leb_gt in H4. lia.
Qed.

Section FetcherProperties.

Variable urlparse : string -> Result ParseResult.
Variable tuf_version : string.
Variable default_user_agent : string.

Local Abbreviation get_session := (_get_session urlparse tuf_version default_user_agent).
Local Abbreviation the_fetch := (fetch urlparse tuf_version default_user_agent).
Local Abbreviation the_run := (run_calls urlparse tuf_version default_user_agent).

Lemma requests_Session_user_agent :
  headers (requests_Session default_user_agent) !! "User-Agent" = Some default_user_agent.
Proof. apply lookup_insert_eq. Qed.

(** An exception of [urlparse] leaves [_get_session] as it is, before
    anything is looked up or created. *)
Lemma _get_session_parse_error st url e :
  urlparse url = Raise e -> get_session st url = (Raise e, st).
Proof. intros H. unfold _get_session. now rewrite H. Qed.

Lemma _get_session_malformed st url p :
  urlparse url = Ok p ->
  truthy_str (scheme p) = false \/ truthy_opt_str (hostname p) = false ->
  get_session st url
  = (Raise (URLParsingError ("Could not get scheme and hostname from URL: " +:+ url)), st).
Proof.
  intros Hp H. unfold _get_session. rewrite Hp.
  destruct H as [H|H]; rewrite H; cbn; [reflexivity|].
  now rewrite orb_true_r.
Qed.

Lemma _get_session_hit st url p s :
  urlparse url = Ok p ->
  truthy_str (scheme p) = true ->
  truthy_opt_str (hostname p) = true ->
  _sessions (self st) !! session_index_of p = Some s ->
  get_session st url = (Ok s, st).
Proof.
  intros Hp Hs Hh Hk. unfold _get_session. rewrite Hp, Hs, Hh. cbn. now rewrite Hk.
Qed.

Lemma _get_session_miss st url p :
  urlparse url = Ok p ->
  truthy_str (scheme p) = true ->
  truthy_opt_str (hostname p) = true ->
  _sessions (self st) !! session_index_of p = None ->
  exists updated,
    get_session st url
    = (Ok (length (heap st)),
       mkState (set_sessions (self st)
                  (<[session_index_of p := length (heap st)]> (_sessions (self st))))
               (<[length (heap st) := updated]>
                  (heap st ++ [requests_Session default_user_agent]))
               (net st)).
Proof.
  intros Hp Hs Hh Hk. unfold _get_session. rewrite Hp, Hs, Hh. cbn [negb orb]. rewrite Hk.
  rewrite requests_Session_user_agent. eexists. reflexivity.
Qed.

(** [_get_session] raises what [urlparse] raised or else
    [URLParsingError], and then it has changed nothing. *)
Lemma _get_session_raises st url e st1 :
  get_session st url = (Raise e, st1) ->
  st1 = st
  /\ (urlparse url = Raise e
      \/ exists p,
           urlparse url = Ok p
           /\ e = URLParsingError ("Could not get scheme and hostname from URL: " +:+ url)
           /\ (truthy_str (scheme p) = false \/ truthy_opt_str (hostname p) = false)).
Proof.
  intros H. destruct (urlparse url) as [p|e0] eqn:Hp.
  - destruct (truthy_str (scheme p)) eqn:Hs.
    + destruct (truthy_opt_str (hostname p)) eqn:Hh.
      * destruct (_sessions (self st) !! session_index_of p) as [s|] eqn:Hk.
        -- rewrite (_get_session_hit st url p s) in H by assumption. discriminate.
        -- destruct (_get_session_miss st url p) as [u Hm]; try assumption.
           rewrite Hm in H. discriminate.
      * rewrite (_get_session_malformed st url p) in H by auto.
        inversion H. split; [reflexivity|]. right. exists p. auto.
    + rewrite (_get_session_malformed st url p) in H by auto.
      inversion H. split; [reflexivity|]. right. exists p. auto.
  - rewrite (_get_session_parse_error st url e0 Hp) in H. inversion H; subst. auto.
Qed.

(** A call that returns a session leaves it stored under the key of the
    URL, keeps every entry the pool had, and touches neither the settings
    nor the network. *)
Lemma _get_session_returns st url s st1 :
  get_session st url = (Ok s, st1) ->
  exists p,
    urlparse url = Ok p
    /\ truthy_str (scheme p) = true
    /\ truthy_opt_str (hostname p) = true
    /\ _sessions (self st1) !! session_index_of p = Some s
    /\ (forall k v, _sessions (self st) !! k = Some v -> _sessions (self st1) !! k = Some v)
    /\ net st1 = net st
    /\ socket_timeout (self st1) = socket_timeout (self st)
    /\ chunk_size (self st1) = chunk_size (self st)
    /\ sleep_before_round (self st1) = sleep_before_round (self st).
Proof.
  intros H. destruct (urlparse url) as [p|e0] eqn:Hp;
    [|rewrite (_get_session_parse_error st url e0 Hp) in H; discriminate].
  exists p. split; [reflexivity|].
  destruct (truthy_str (scheme p)) eqn:Hs;
    [|rewrite (_get_session_malformed st url p) in H by auto; discriminate].
  destruct (truthy_opt_str (hostname p)) eqn:Hh;
    [|rewrite (_get_session_malformed st url p) in H by auto; discriminate].
  destruct (_sessions (self st) !! session_index_of p) as [s0|] eqn:Hk.
  - rewrite (_get_session_hit st url p s0) in H by assumption.
    inversion H; subst. repeat split; auto.
  - destruct (_get_session_miss st url p) as [u Hm]; try assumption.
    rewrite Hm in H. inversion H; subst. cbn.
    repeat split; auto.
    + apply lookup_insert_eq.
    + intros k v Hkv. rewrite lookup_insert_ne; [assumption|congruence].
Qed.

Lemma _get_session_ok st url p :
  urlparse url = Ok p ->
  truthy_str (scheme p) = true ->
  truthy_opt_str (hostname p) = true ->
  exists s st1, get_session st url = (Ok s, st1).
Proof.
  intros Hp Hs Hh. destruct (_sessions (self st) !! session_index_of p) as [s0|] eqn:Hk.
  - exists s0, st. now apply (_get_session_hit st url p).
  - destruct (_get_session_miss st url p) as [u Hm]; try assumption. eauto.
Qed.

(** The invariant of the pool holds for a new fetcher and is kept by
    [_get_session]. *)
Lemma pool_wf_initial : pool_wf initial_state.
Proof. split; cbn; intros *; rewrite lookup_empty; discriminate. Qed.

Lemma _get_session_pool_wf st url r st1 :
  get_session st url = (r, st1) -> pool_wf st -> pool_wf st1.
Proof.
  intros H Hwf.
  destruct r as [s|e]; [|apply _get_session_raises in H as (-> & _); assumption].
  pose proof (_get_session_returns _ _ _ _ H) as (p & Hp & Hs & Hh & _).
  destruct (_sessions (self st) !! session_index_of p) as [s0|] eqn:Hk.
  - rewrite (_get_session_hit st url p s0) in H by assumption. now inversion H; subst.
  - destruct (_get_session_miss st url p) as [u Hm]; try assumption.
    rewrite Hm in H. inversion H; subst. clear H Hm.
    destruct Hwf as [Hin Hinj]. split; cbn.
    + intros k v Hkv. rewrite length_insert, length_app. simpl.
      destruct (decide (session_index_of p = k)) as [<-|Hne].
      * rewrite lookup_insert_eq in Hkv. inversion Hkv. lia.
      * rewrite lookup_insert_ne in Hkv by assumption. specialize (Hin k v Hkv). lia.
    + intros k1 k2 v H1 H2.
      destruct (decide (session_index_of p = k1)) as [<-|Hne1];
        destruct (decide (session_index_of p = k2)) as [<-|Hne2]; auto.
      * rewrite lookup_insert_eq in H1. rewrite lookup_insert_ne in H2 by assumption.
        inversion H1; subst. specialize (Hin k2 _ H2). lia.
      * rewrite lookup_insert_eq in H2. rewrite lookup_insert_ne in H1 by assumption.
        inversion H2; subst. specialize (Hin k1 _ H1). lia.
      * rewrite lookup_insert_ne in H1, H2 by assumption. eauto.
Qed.

(** The state [fetch] leaves is the one [_get_session] left, with the
    requests issued added to the log. *)
Lemma fetch_state st url required_length srv :
  exists ops,
    snd (the_fetch st url required_length srv)
    = mkState (self (snd (get_session st url))) (heap (snd (get_session st url)))
              (net (snd (get_session st url)) ++ ops).
Proof.
  unfold fetch. destruct (get_session st url) as [[s|e] st1]; cbn [snd].
  - destruct (session_get srv url) as [r|e]; [|eexists; reflexivity].
    destruct (raise_for_status r) as [[]|[]]; eexists; reflexivity.
  - exists []. destruct st1; cbn. now rewrite app_nil_r.
Qed.

Lemma fetch_pool st url required_length srv :
  _sessions (self (snd (the_fetch st url required_length srv)))
  = _sessions (self (snd (get_session st url)))
  /\ heap (snd (the_fetch st url required_length srv)) = heap (snd (get_session st url)).
Proof.
  destruct (fetch_state st url required_length srv) as [ops ->]. split; reflexivity.
Qed.

(** A stream is returned only for a response whose status is no failure;
    it is the unstarted generator over that response, and the settings of
    the fetcher are as before the call. *)
Lemma fetch_returns_inv st url required_length srv g st' :
  the_fetch st url required_length srv = (FetchReturns g, st') ->
  exists status rsn rurl body,
    srv = Responds status rsn rurl body
    /\ g = _chunks (mkResponse status rsn rurl body [] 0) required_length
    /\ status_indicates_failure status = false
    /\ chunk_size (self st') = chunk_size (self st)
    /\ sleep_before_round (self st') = sleep_before_round (self st).
Proof.
  unfold fetch. intros H.
  destruct (get_session st url) as [[s|e] st1] eqn:Hg; [|discriminate].
  apply _get_session_returns in Hg as (p & _ & _ & _ & _ & _ & _ & _ & Hcs & Hsl).
  destruct srv as [e|status rsn rurl body]; [discriminate|]. cbn [session_get] in H.
  destruct (status_indicates_failure status) eqn:Hst.
  - rewrite raise_for_status_failure in H by assumption. discriminate.
  - rewrite raise_for_status_success in H by assumption.
    inversion H; subst. exists status, rsn, rurl, body. repeat split; auto.
Qed.


(** ** The stream returned by [fetch] *)

(** C1, length bound.  Whatever the server puts on the wire and however
    many chunks the consumer asks for, the chunks handed out by the
    stream that [fetch (url, required_length)] returned never add up to
    more than [required_length] (for a chunk size that is not negative).
    When they add up to [required_length] there has been exactly one read
    per chunk, so none after the last one, and a consumer that asks again
    finds the stream ended.  In general a stream suspended with
    [bytes_received >= required_length] ends at the next pull without
    reading: the read log and the wire are left as they were, whatever
    is still on the wire. *)
Theorem fetch_length_bound st url required_length srv g st' n chunks o g' :
  0 <= required_length ->
  0 <= chunk_size (self st) ->
  the_fetch st url required_length srv = (FetchReturns g, st') ->
  consume n (self st') g = (chunks, o, g') ->
  total_length chunks <= required_length
  /\ (total_length chunks = required_length -> 0 < required_length ->
      length (reads (g_response g')) = length chunks
      /\ ((length chunks < n)%nat -> o = Exhausted))
  /\ (forall gs bytes_received,
        g_state gs = Suspended bytes_received ->
        g_required_length gs <= bytes_received ->
        exists gs',
          gen_next (self st') gs = (StopIteration, gs')
          /\ g_state gs' = Finished
          /\ reads (g_response gs') = reads (g_response gs)
          /\ raw (g_response gs') = raw (g_response gs)).
Proof.
  intros HL Hcs Hfetch Hrun.
  apply fetch_returns_inv in Hfetch as (status & rsn & rurl & body & -> & -> & _ & Hcs' & _).
  rewrite <- Hcs' in Hcs. split; [|split].
  - pose proof (fun H => consume_bound _ _ _ _ _ _ Hcs H Hrun) as Hb.
    cbn in Hb. specialize (Hb HL). lia.
  - intros Htot Hpos.
    eapply consume_stops_at_length in Hrun; cbn; eauto; try lia; discriminate.
  - intros gs br Hst Hge. unfold gen_next. rewrite Hst.
    replace (br >=? g_required_length gs) with true
      by (symmetry; rewrite Z.geb_leb; apply Z.leb_le; lia).
    eexists. repeat split.
Qed.

(** C2, as amended.  Once the consumer has pulled at least once from the
    stream that [fetch] returned, the response has been closed exactly
    once when the consumer is done, however the stream ended: end of the
    body, required length reached, read timeout, another error of a read,
    or the consumer dropping the stream.  The generator is then finished,
    and neither a further [next] nor a [close] closes the response
    again. *)
Theorem started_stream_closes_once st url required_length srv g st' n chunks o g' :
  (0 < n)%nat ->
  the_fetch st url required_length srv = (FetchReturns g, st') ->
  consume n (self st') g = (chunks, o, g') ->
  closed (g_response g') = 1%nat
  /\ g_state g' = Finished
  /\ (forall f, closed (g_response (snd (gen_next f g'))) = 1%nat)
  /\ closed (g_response (gen_close g')) = 1%nat.
Proof.
  intros Hn Hfetch Hrun.
  apply fetch_returns_inv in Hfetch as (status & rsn & rurl & body & -> & -> & _).
  apply consume_closes in Hrun as [Hfin Hclosed]; [|discriminate|now left].
  cbn in Hclosed. repeat split; auto.
  - intros f. now rewrite (proj1 (finished_is_final f g' Hfin)).
  - now rewrite (proj2 (finished_is_final (self st') g' Hfin)).
Qed.

(** C3, stall detection.  The server sends some bytes, fewer than the
    required length, and then stalls, so that the pending read raises
    [ReadTimeoutError].  A consumer that keeps pulling gets the full
    chunks that were complete before the stall (at least one when a
    chunk's worth of bytes had arrived) and then [SlowRetrievalError]
    with the message of the timeout; when the error reaches it the
    response has been closed exactly once. *)
Theorem stall_raises_slow_retrieval st url required_length status rsn rurl segs msg tail
    g st' n :
  well_configured (self st) ->
  len (concat segs) < required_length ->
  (length (concat segs) < n)%nat ->
  the_fetch st url required_length
    (Responds status rsn rurl (map Data segs ++ Raises (ReadTimeoutError msg) :: tail))
  = (FetchReturns g, st') ->
  exists chunks lost g',
    consume n (self st') g = (chunks, Failed (SlowRetrievalError msg), g')
    /\ concat segs = concat chunks ++ lost
    /\ len lost < chunk_size (self st)
    /\ Forall (fun d => len d = chunk_size (self st)) chunks
    /\ (chunk_size (self st) <= len (concat segs) -> chunks <> [])
    /\ closed (g_response g') = 1%nat
    /\ g_state g' = Finished.
Proof.
  intros Hwf Hshort Hn Hfetch.
  apply fetch_returns_inv in Hfetch as (s0 & r0 & u0 & b0 & Hsrv & -> & _ & Hcs & Hsl).
  inversion Hsrv; subst s0 r0 u0 b0. clear Hsrv.
  assert (Hwf' : well_configured (self st'))
    by (unfold well_configured in *; now rewrite Hcs, Hsl).
  destruct (consume_read_error n (self st')
              (_chunks (mkResponse status rsn rurl
                          (map Data segs ++ Raises (ReadTimeoutError msg) :: tail) [] 0)
                       required_length)
              segs (ReadTimeoutError msg) tail)
    as (chunks & lost & g' & Hrun & Hcat & Hlost & Hall); auto; try discriminate.
  exists chunks, lost, g'. rewrite <- Hcs.
  pose proof (fun H1 H2 => consume_closes _ _ _ _ _ _ H1 H2 Hrun) as Hc.
  destruct Hc as [Hfin Hclosed]; [discriminate|left; lia|].
  repeat split; auto.
  intros Hge ->. cbn in Hcat. rewrite Hcat in Hge. lia.
Qed.


(** C6, HTTP failure short-circuits.  For a URL with scheme and hostname
    and a response whose status is a failure (400 to 599), [fetch] raises
    [FetcherHTTPError] with the message of the [HTTPError] and the status
    code of the response.  No stream is returned, so no chunk is handed
    out: nothing was read from the body, which is still on the wire, and
    the response has been closed exactly once when the error is
    raised. *)
Theorem http_failure_short_circuits st url p required_length status rsn rurl body :
  urlparse url = Ok p ->
  truthy_str (scheme p) = true ->
  truthy_opt_str (hostname p) = true ->
  status_indicates_failure status = true ->
  exists r st',
    the_fetch st url required_length (Responds status rsn rurl body)
    = (FetchRaises
         (FetcherHTTPError
            (pretty status
             +:+ (if status <? 500 then " Client Error: " else " Server Error: ")
             +:+ rsn +:+ " for url: " +:+ rurl)
            status)
         (Some r), st')
    /\ closed r = 1%nat
    /\ reads r = []
    /\ raw r = body.
Proof.
  intros Hp Hs Hh Hfail.
  destruct (_get_session_ok st url p Hp Hs Hh) as (s & st1 & Hg).
  unfold fetch. rewrite Hg. cbn [session_get].
  rewrite raise_for_status_failure by assumption.
  eexists _, _. split; [reflexivity|]. repeat split.
Qed.

(** C7, malformed URL rejected early.  For a URL whose parsed scheme is
    empty or whose parsed hostname is missing or empty, [fetch] raises
    [URLParsingError] whatever the network would answer, and leaves the
    state as it was: no session has been created or stored and the log of
    network operations has not grown. *)
Theorem malformed_url_rejected st url p required_length srv :
  urlparse url = Ok p ->
  truthy_str (scheme p) = false \/ truthy_opt_str (hostname p) = false ->
  the_fetch st url required_length srv
  = (FetchRaises
       (URLParsingError ("Could not get scheme and hostname from URL: " +:+ url)) None,
     st).
Proof.
  intros Hp H. unfold fetch. now rewrite (_get_session_malformed st url p).
Qed.

(** C8, early end of the body.  The server sends fewer bytes than the
    required length and closes.  A consumer that keeps pulling gets
    chunks whose concatenation is exactly the bytes sent, in order, and
    then the normal end of the stream, not an error; the response has
    been closed exactly once. *)
Theorem early_eof_is_normal st url required_length status rsn rurl segs g st' n :
  well_configured (self st) ->
  len (concat segs) < required_length ->
  (length (concat segs) < n)%nat ->
  the_fetch st url required_length (Responds status rsn rurl (map Data segs))
  = (FetchReturns g, st') ->
  exists chunks g',
    consume n (self st') g = (chunks, Exhausted, g')
    /\ concat chunks = concat segs
    /\ total_length chunks = len (concat segs)
    /\ closed (g_response g') = 1%nat.
Proof.
  intros Hwf Hshort Hn Hfetch.
  apply fetch_returns_inv in Hfetch as (s0 & r0 & u0 & b0 & Hsrv & -> & _ & Hcs & Hsl).
  inversion Hsrv; subst s0 r0 u0 b0. clear Hsrv.
  assert (Hwf' : well_configured (self st'))
    by (unfold well_configured in *; now rewrite Hcs, Hsl).
  destruct (consume_early_eof n (self st')
              (_chunks (mkResponse status rsn rurl (map Data segs) [] 0) required_length)
              segs)
    as (chunks & g' & Hrun & Hcat); auto; try discriminate.
  exists chunks, g'.
  pose proof (fun H1 H2 => consume_closes _ _ _ _ _ _ H1 H2 Hrun) as Hc.
  destruct Hc as [_ Hclosed]; [discriminate|left; lia|].
  repeat split; auto. unfold total_length, len. now rewrite Hcat.
Qed.

Lemma follows_schedule_cons cs L br d chunks :
  follows_schedule cs L br (d :: chunks) = true ->
  len d = Z.min cs (L - br) /\ follows_schedule cs L (br + len d) chunks = true.
Proof.
  cbn [follows_schedule]. intros H. apply andb_true_iff in H as [Hd H].
  apply Z.eqb_eq in Hd. auto.
Qed.

Lemma schedule_4_10 chunks :
  follows_schedule 4 10 0 chunks = true ->
  Forall (fun d => d <> []) chunks ->
  total_length chunks = 10 ->
  map len chunks = [4; 4; 2].
Proof.
  intros Hs Hne Htot.
  assert (Hpos : forall d : list byte, d <> [] -> 0 < len d).
  { intros [|b d] Hd; [congruence|]. unfold len. simpl. lia. }
  assert (Hnil : total_length [] = 0) by reflexivity.
  destruct chunks as [|d1 chunks]; [rewrite Hnil in Htot; lia|].
  apply follows_schedule_cons in Hs as [H1 Hs]. rewrite total_length_cons in Htot.
  destruct chunks as [|d2 chunks]; [rewrite Hnil in Htot; lia|].
  apply follows_schedule_cons in Hs as [H2 Hs]. rewrite total_length_cons in Htot.
  destruct chunks as [|d3 chunks]; [rewrite Hnil in Htot; lia|].
  apply follows_schedule_cons in Hs as [H3 Hs]. rewrite total_length_cons in Htot.
  destruct chunks as [|d4 chunks].
  - cbn [map]. repeat f_equal; lia.
  - apply follows_schedule_cons in Hs as [H4 _].
    inversion Hne as [|? ? _ Hne1]; subst. inversion Hne1 as [|? ? _ Hne2]; subst.
    inversion Hne2 as [|? ? _ Hne3]; subst. inversion Hne3 as [|? ? Hd4 _]; subst.
    apply Hpos in Hd4. lia.
Qed.

(** C9, exact-length success and chunk sizing.  The server sends exactly
    [required_length] bytes in any number of writes.  A consumer that
    keeps pulling gets chunks whose concatenation is exactly those bytes
    in order, and then the normal end of the stream.  Every chunk has
    the size [min(chunk_size, required_length - bytes_received)] of its
    round, these are the amounts read and there is no other read (for a
    required length of zero the single read asks for zero bytes); with a
    chunk size of 4 and a required length of 10 the sizes are 4, 4, 2.
    The response has been closed exactly once. *)
Theorem exact_length_success st url required_length status rsn rurl segs tail g st' n :
  well_configured (self st) ->
  len (concat segs) = required_length ->
  (length (concat segs) < n)%nat ->
  the_fetch st url required_length (Responds status rsn rurl (map Data segs ++ tail))
  = (FetchReturns g, st') ->
  exists chunks g',
    consume n (self st') g = (chunks, Exhausted, g')
    /\ concat chunks = concat segs
    /\ follows_schedule (chunk_size (self st)) required_length 0 chunks = true
    /\ reads (g_response g') = (if required_length =? 0 then [0] else map len chunks)
    /\ (chunk_size (self st) = 4 -> required_length = 10 -> map len chunks = [4; 4; 2])
    /\ closed (g_response g') = 1%nat.
Proof.
  intros Hwf Hexact Hn Hfetch.
  apply fetch_returns_inv in Hfetch as (s0 & r0 & u0 & b0 & Hsrv & -> & _ & Hcs & Hsl).
  inversion Hsrv; subst s0 r0 u0 b0. clear Hsrv.
  assert (Hwf' : well_configured (self st'))
    by (unfold well_configured in *; now rewrite Hcs, Hsl).
  destruct (consume_exact n (self st')
              (_chunks (mkResponse status rsn rurl (map Data segs ++ tail) [] 0)
                       required_length)
              segs tail)
    as (chunks & g' & Hrun & Hcat & Hsched & Hreads); auto; try discriminate.
  unfold received, _chunks in Hsched, Hreads.
  cbn [g_state g_response g_required_length reads app] in Hsched, Hreads.
  rewrite Hcs in Hsched.
  exists chunks, g'.
  pose proof (fun H1 H2 => consume_closes _ _ _ _ _ _ H1 H2 Hrun) as Hc.
  destruct Hc as [_ Hclosed]; [discriminate|left; lia|].
  repeat split; auto.
  intros H4 H10. rewrite H4, H10 in Hsched. apply schedule_4_10; auto.
  - eapply consume_chunks_nonempty; eauto.
  - unfold total_length. rewrite Hcat. unfold len in Hexact. lia.
Qed.

(** C10, no empty chunks.  Every chunk handed out by the stream that
    [fetch] returned holds at least one byte, for every required length
    and every behaviour of the server.  With a required length of zero
    (and a chunk size that is not negative) no chunk is handed out, and
    the first pull closes the response. *)
Theorem no_empty_chunks st url required_length srv g st' n chunks o g' :
  the_fetch st url required_length srv = (FetchReturns g, st') ->
  consume n (self st') g = (chunks, o, g') ->
  Forall (fun d => d <> []) chunks
  /\ (required_length = 0 -> 0 <= chunk_size (self st) ->
      chunks = [] /\ ((0 < n)%nat -> closed (g_response g') = 1%nat)).
Proof.
  intros Hfetch Hrun.
  pose proof (consume_chunks_nonempty _ _ _ _ _ _ Hrun) as Hne.
  split; [assumption|]. intros HL Hcs.
  apply fetch_returns_inv in Hfetch as (status & rsn & rurl & body & -> & -> & _ & Hcs' & _).
  rewrite <- Hcs' in Hcs. split.
  - pose proof (fun H => consume_bound _ _ _ _ _ _ Hcs H Hrun) as Hb.
    cbn in Hb. specialize (Hb ltac:(lia)).
    destruct chunks as [|d chunks]; [reflexivity|].
    inversion Hne as [|? ? Hd _]; subst. rewrite total_length_cons in Hb.
    destruct d; [congruence|]. unfold len, total_length in Hb. simpl in Hb. lia.
  - intros Hn.
    pose proof (fun H1 H2 => consume_closes _ _ _ _ _ _ H1 H2 Hrun) as Hc.
    destruct Hc as [_ Hclosed]; [discriminate|now left|]. exact Hclosed.
Qed.

(** ** The session pool over a series of calls *)

Lemma _get_session_keeps st url k v :
  _sessions (self st) !! k = Some v ->
  _sessions (self (snd (get_session st url))) !! k = Some v.
Proof.
  intros Hkv. destruct (get_session st url) as [[s|e] st1] eqn:Hg; cbn [snd].
  - apply _get_session_returns in Hg as (p & _ & _ & _ & _ & Hkeep & _). auto.
  - apply _get_session_raises in Hg as (-> & _). assumption.
Qed.

(** No call of [fetch] removes or replaces an entry of the pool. *)
Lemma fetch_keeps_entries st url required_length srv k v :
  _sessions (self st) !! k = Some v ->
  _sessions (self (snd (the_fetch st url required_length srv))) !! k = Some v.
Proof.
  intros Hkv. rewrite (proj1 (fetch_pool st url required_length srv)).
  now apply _get_session_keeps.
Qed.

Lemma fetch_pool_wf st url required_length srv :
  pool_wf st -> pool_wf (snd (the_fetch st url required_length srv)).
Proof.
  intros Hwf.
  assert (Hwf1 : pool_wf (snd (get_session st url))).
  { destruct (get_session st url) as [r st1] eqn:Hg.
    eapply _get_session_pool_wf; eauto. }
  destruct (fetch_pool st url required_length srv) as [Hp Hh].
  unfold pool_wf in *. rewrite Hp, Hh. exact Hwf1.
Qed.

Lemma run_calls_keeps_entries calls st k v :
  _sessions (self st) !! k = Some v ->
  _sessions (self (the_run st calls)) !! k = Some v.
Proof.
  revert st. induction calls as [|c calls IH]; intros st Hkv; cbn [run_calls].
  - assumption.
  - apply IH. now apply fetch_keeps_entries.
Qed.

Lemma run_calls_pool_wf calls st :
  pool_wf st -> pool_wf (the_run st calls).
Proof.
  revert st. induction calls as [|c calls IH]; intros st Hwf; cbn [run_calls].
  - assumption.
  - apply IH. now apply fetch_pool_wf.
Qed.


(** Two calls whose URLs have different keys are given different
    sessions. *)
Lemma distinct_keys_distinct_sessions st url1 L1 srv1 s1 st1 calls url2 s2 st3 p1 p2 :
  pool_wf st ->
  get_session st url1 = (Ok s1, st1) ->
  get_session (the_run (snd (the_fetch st url1 L1 srv1)) calls) url2 = (Ok s2, st3) ->
  urlparse url1 = Ok p1 ->
  urlparse url2 = Ok p2 ->
  session_index_of p1 <> session_index_of p2 ->
  s1 <> s2.
Proof.
  intros Hwf Hg1 Hg2 Hp1 Hp2 Hkeys Heq. subst s2.
  pose proof (_get_session_returns _ _ _ _ Hg1) as (q1 & Hq1 & _ & _ & Hstored1 & _).
  pose proof (_get_session_returns _ _ _ _ Hg2)
    as (q2 & Hq2 & _ & _ & Hstored2 & Hkeep2 & _).
  rewrite Hp1 in Hq1. inversion Hq1; subst q1. clear Hq1.
  rewrite Hp2 in Hq2. inversion Hq2; subst q2. clear Hq2.
  assert (Hwf3 : pool_wf st3).
  { eapply _get_session_pool_wf; [exact Hg2|].
    apply run_calls_pool_wf, fetch_pool_wf, Hwf. }
  apply Hkeys. destruct Hwf3 as [_ Hinj]. eapply Hinj; [|exact Hstored2].
  apply Hkeep2. apply run_calls_keeps_entries.
  rewrite (proj1 (fetch_pool st url1 L1 srv1)), Hg1. exact Hstored1.
Qed.

End FetcherProperties.

(** ** Keys of the pool *)

Lemma session_key_split s1 s2 h1 h2 :
  has_plus s1 = false -> has_plus s2 = false ->
  s1 +:+ "+" +:+ h1 = s2 +:+ "+" +:+ h2 ->
  s1 = s2 /\ h1 = h2.
Proof.
  revert s2. induction s1 as [|c1 s1 IH]; intros [|c2 s2] H1 H2 Heq; cbn in *.
  - inversion Heq. auto.
  - inversion Heq; subst. cbn in H2. discriminate.
  - inversion Heq; subst. cbn in H1. discriminate.
  - inversion Heq; subst.
    apply orb_false_iff in H1 as [_ H1]. apply orb_false_iff in H2 as [_ H2].
    destruct (IH s2 H1 H2) as [-> ->]; auto.
Qed.

(** For schemes without a [+], such as [http] and [https], the key tells
    the endpoints apart. *)
Lemma session_index_injective p1 p2 :
  has_plus (scheme p1) = false -> has_plus (scheme p2) = false ->
  truthy_opt_str (hostname p1) = true -> truthy_opt_str (hostname p2) = true ->
  session_index_of p1 = session_index_of p2 ->
  scheme p1 = scheme p2 /\ hostname p1 = hostname p2.
Proof.
  unfold session_index_of. intros H1 H2 Hh1 Hh2 Heq.
  destruct (hostname p1) as [h1|]; [|discriminate].
  destruct (hostname p2) as [h2|]; [|discriminate].
  destruct (session_key_split _ _ _ _ H1 H2 Heq) as [Hs Hh].
  cbn in Hh. split; congruence.
Qed.

(** ** Runs on concrete inputs *)

(** C5 at the two URLs [a+b://c/x] and [a://b+c/x].  Their parsed
    (scheme, hostname) pairs differ, both are stored under the key
    [a+b+c], and the second call is given the session object created for
    the first: both requests go out on session 0, the only one on the
    heap. *)
Theorem session_key_collision :
  let p1 := mkParseResult "a+b" (Some "c") in
  let p2 := mkParseResult "a" (Some "b+c") in
  let st1 := snd (Concrete.fetch initial_state "a+b://c/x" 10
                    (ConnFails Concrete.invalid_schema)) in
  let st2 := snd (Concrete.fetch st1 "a://b+c/x" 10 (ConnFails Concrete.invalid_schema)) in
  UrlParse.urlparse "a+b://c/x" = Ok p1
  /\ UrlParse.urlparse "a://b+c/x" = Ok p2
  /\ (scheme p1, hostname p1) <> (scheme p2, hostname p2)
  /\ session_index_of p1 = session_index_of p2
  /\ fst (Concrete._get_session initial_state "a+b://c/x") = Ok 0%nat
  /\ fst (Concrete._get_session st1 "a://b+c/x") = Ok 0%nat
  /\ net st2 = [NetGet 0 "a+b://c/x" true 4; NetGet 0 "a://b+c/x" true 4]
  /\ length (heap st2) = 1%nat.
Proof. vm_compute. repeat split. intros H. discriminate H. Qed.

(** Eleven bytes are on the wire and ten are required: the chunks handed
    out hold ten bytes. *)
Lemma fetch_length_bound_witness :
  let srv := Concrete.ok (map Data Concrete.ten_bytes ++ [Data ["x"%byte]]) in
  let st' := Concrete.fetched (Concrete.with_chunk_size 4) 10 srv in
  let g := Concrete.stream 10 (map Data Concrete.ten_bytes ++ [Data ["x"%byte]]) in
  Concrete.fetch (Concrete.with_chunk_size 4) Concrete.url 10 srv = (FetchReturns g, st')
  /\ total_length (fst (fst (consume 5 (self st') g))) <= 10.
Proof.
  intros srv st' g.
  assert (Hfetch : Concrete.fetch (Concrete.with_chunk_size 4) Concrete.url 10 srv
                   = (FetchReturns g, st')) by (vm_compute; reflexivity).
  split; [exact Hfetch|].
  refine (proj1 (fetch_length_bound UrlParse.urlparse "0.19.0" "python-requests/2.25.1"
                   (Concrete.with_chunk_size 4) Concrete.url 10 srv g st' 5
                   (fst (fst (consume 5 (self st') g))) (snd (fst (consume 5 (self st') g)))
                   (snd (consume 5 (self st') g)) _ _ Hfetch _)).
  - lia.
  - cbn. lia.
  - destruct (consume 5 (self st') g) as [[chunks o] g']. reflexivity.
Defined.

(** One pull, then the consumer drops the stream: closed once. *)
Lemma started_stream_closes_once_witness :
  let srv := Concrete.ok (map Data Concrete.ten_bytes) in
  let st' := Concrete.fetched (Concrete.with_chunk_size 4) 10 srv in
  let g := Concrete.stream 10 (map Data Concrete.ten_bytes) in
  (0 < 1)%nat
  /\ snd (fst (consume 1 (self st') g)) = Abandoned
  /\ closed (g_response (snd (consume 1 (self st') g))) = 1%nat.
Proof.
  intros srv st' g.
  assert (Hfetch : Concrete.fetch (Concrete.with_chunk_size 4) Concrete.url 10 srv
                   = (FetchReturns g, st')) by (vm_compute; reflexivity).
  split; [lia|]. split; [vm_compute; reflexivity|].
  refine (proj1 (started_stream_closes_once UrlParse.urlparse "0.19.0"
                   "python-requests/2.25.1"
                   (Concrete.with_chunk_size 4) Concrete.url 10 srv g st' 1
                   (fst (fst (consume 1 (self st') g))) (snd (fst (consume 1 (self st') g)))
                   (snd (consume 1 (self st') g)) _ Hfetch _)).
  - lia.
  - destruct (consume 1 (self st') g) as [[chunks o] g']. reflexivity.
Defined.

(** C2 as stated fails for a consumer that drops the stream before its
    first pull: the body of the generator has not been entered, so its
    [finally] clause does not run and the response has not been closed. *)
Lemma unstarted_stream_is_not_closed :
  let srv := Concrete.ok (map Data Concrete.ten_bytes) in
  let st' := Concrete.fetched (Concrete.with_chunk_size 4) 10 srv in
  let g := Concrete.stream 10 (map Data Concrete.ten_bytes) in
  Concrete.fetch (Concrete.with_chunk_size 4) Concrete.url 10 srv = (FetchReturns g, st')
  /\ consume 0 (self st') g = ([], Abandoned, gen_close g)
  /\ g_state (gen_close g) = Finished
  /\ closed (g_response (gen_close g)) = 0%nat.
Proof. vm_compute. repeat split. Qed.

(** Ten bytes arrive, twelve are required, then the server stalls. *)
Lemma stall_raises_slow_retrieval_witness :
  let body := map Data Concrete.ten_bytes ++ [Concrete.stalls] in
  let st' := Concrete.fetched (Concrete.with_chunk_size 4) 12 (Concrete.ok body) in
  well_configured (self (Concrete.with_chunk_size 4))
  /\ exists chunks g',
       consume 11 (self st') (Concrete.stream 12 body)
       = (chunks, Failed (SlowRetrievalError "Read timed out."), g')
       /\ chunks <> []
       /\ closed (g_response g') = 1%nat.
Proof.
  intros body st'.
  assert (Hwf : well_configured (self (Concrete.with_chunk_size 4)))
    by (split; cbn; [lia|exact I]).
  split; [exact Hwf|].
  destruct (stall_raises_slow_retrieval UrlParse.urlparse "0.19.0" "python-requests/2.25.1"
              (Concrete.with_chunk_size 4) Concrete.url 12 200 "OK" Concrete.url Concrete.ten_bytes
              "Read timed out." [] (Concrete.stream 12 body) st' 11)
    as (chunks & lost & g' & Hrun & _ & _ & _ & Hne & Hclosed & _).
  - exact Hwf.
  - vm_compute. reflexivity.
  - vm_compute. lia.
  - vm_compute. reflexivity.
  - exists chunks, g'. split; [exact Hrun|]. split; [|exact Hclosed].
    apply Hne. vm_compute. discriminate.
Defined.



(** A 404 for a well-formed URL. *)
Lemma http_failure_short_circuits_witness :
  UrlParse.urlparse Concrete.url = Ok (mkParseResult "http" (Some "example.com"))
  /\ status_indicates_failure 404 = true
  /\ exists r st',
       Concrete.fetch initial_state Concrete.url 10
         (Responds 404 "Not Found" Concrete.url (map Data Concrete.ten_bytes))
       = (FetchRaises
            (FetcherHTTPError
               "404 Client Error: Not Found for url: http://example.com/targets.json" 404)
            (Some r), st')
       /\ closed r = 1%nat /\ reads r = [] /\ raw r = map Data Concrete.ten_bytes.
Proof.
  split; [reflexivity|]. split; [reflexivity|].
  exact (http_failure_short_circuits UrlParse.urlparse "0.19.0" "python-requests/2.25.1"
           initial_state Concrete.url (mkParseResult "http" (Some "example.com"))
           10 404 "Not Found" Concrete.url (map Data Concrete.ten_bytes)
           eq_refl eq_refl eq_refl eq_refl).
Defined.

(** A URL without a scheme, and one without a host. *)
Lemma malformed_url_rejected_witness :
  UrlParse.urlparse "example.com/targets.json" = Ok (mkParseResult "" None)
  /\ UrlParse.urlparse "http:///targets.json" = Ok (mkParseResult "http" None)
  /\ Concrete.fetch initial_state "example.com/targets.json" 10
       (Concrete.ok (map Data Concrete.ten_bytes))
     = (FetchRaises
          (URLParsingError
             "Could not get scheme and hostname from URL: example.com/targets.json") None,
        initial_state)
  /\ Concrete.fetch initial_state "http:///targets.json" 10
       (Concrete.ok (map Data Concrete.ten_bytes))
     = (FetchRaises
          (URLParsingError
             "Could not get scheme and hostname from URL: http:///targets.json") None,
        initial_state).
Proof.
  split; [reflexivity|]. split; [reflexivity|]. split.
  - apply (malformed_url_rejected UrlParse.urlparse "0.19.0" "python-requests/2.25.1"
             initial_state "example.com/targets.json" (mkParseResult "" None) 10);
      [reflexivity|left; reflexivity].
  - apply (malformed_url_rejected UrlParse.urlparse "0.19.0" "python-requests/2.25.1"
             initial_state "http:///targets.json" (mkParseResult "http" None) 10);
      [reflexivity|right; reflexivity].
Defined.

(** Ten bytes arrive, twelve are required, then the server closes. *)
Lemma early_eof_is_normal_witness :
  let body := map Data Concrete.ten_bytes in
  let st' := Concrete.fetched (Concrete.with_chunk_size 4) 12 (Concrete.ok body) in
  len (concat Concrete.ten_bytes) < 12
  /\ exists chunks g',
       consume 11 (self st') (Concrete.stream 12 body) = (chunks, Exhausted, g')
       /\ concat chunks = concat Concrete.ten_bytes
       /\ total_length chunks = 10
       /\ closed (g_response g') = 1%nat.
Proof.
  intros body st'. split; [vm_compute; reflexivity|].
  apply (early_eof_is_normal UrlParse.urlparse "0.19.0" "python-requests/2.25.1"
           (Concrete.with_chunk_size 4) Concrete.url 12 200 "OK" Concrete.url Concrete.ten_bytes
           (Concrete.stream 12 body) st' 11).
  - split; cbn; [lia|exact I].
  - vm_compute. reflexivity.
  - vm_compute. lia.
  - vm_compute. reflexivity.
Defined.

(** Ten bytes written in pieces of three and seven, ten required, chunk
    size four: chunks of 4, 4 and 2 bytes. *)
Lemma exact_length_success_witness :
  let body := map Data Concrete.ten_bytes in
  let st' := Concrete.fetched (Concrete.with_chunk_size 4) 10 (Concrete.ok body) in
  len (concat Concrete.ten_bytes) = 10
  /\ exists chunks g',
       consume 11 (self st') (Concrete.stream 10 body) = (chunks, Exhausted, g')
       /\ concat chunks = concat Concrete.ten_bytes
       /\ map len chunks = [4; 4; 2]
       /\ reads (g_response g') = [4; 4; 2]
       /\ closed (g_response g') = 1%nat.
Proof.
  intros body st'. split; [reflexivity|].
  destruct (exact_length_success UrlParse.urlparse "0.19.0" "python-requests/2.25.1"
              (Concrete.with_chunk_size 4) Concrete.url 10 200 "OK" Concrete.url Concrete.ten_bytes []
              (Concrete.stream 10 body) st' 11)
    as (chunks & g' & Hrun & Hcat & _ & Hreads & Hsizes & Hclosed).
  - split; cbn; [lia|exact I].
  - reflexivity.
  - vm_compute. lia.
  - vm_compute. reflexivity.
  - exists chunks, g'. specialize (Hsizes eq_refl eq_refl).
    cbn in Hreads. rewrite Hsizes in Hreads. auto.
Defined.

(** Nothing is required: no chunk, and the first pull closes. *)
Lemma no_empty_chunks_witness :
  let body := map Data Concrete.ten_bytes in
  let st' := Concrete.fetched initial_state 0 (Concrete.ok body) in
  let run := consume 3 (self st') (Concrete.stream 0 body) in
  Concrete.fetch initial_state Concrete.url 0 (Concrete.ok body)
  = (FetchReturns (Concrete.stream 0 body), st')
  /\ fst (fst run) = []
  /\ closed (g_response (snd run)) = 1%nat.
Proof.
  intros body st' run.
  assert (Hfetch : Concrete.fetch initial_state Concrete.url 0 (Concrete.ok body)
                   = (FetchReturns (Concrete.stream 0 body), st'))
    by (vm_compute; reflexivity).
  split; [exact Hfetch|].
  destruct (no_empty_chunks UrlParse.urlparse "0.19.0" "python-requests/2.25.1"
              initial_state Concrete.url 0 (Concrete.ok body) (Concrete.stream 0 body) st' 3
              (fst (fst run)) (snd (fst run)) (snd run) Hfetch) as [_ H0].
  - unfold run.
    destruct (consume 3 (self st') (Concrete.stream 0 body)) as [[chunks o] g'].
    reflexivity.
  - destruct H0 as [Hnil Hclosed]; [reflexivity|cbn; lia|].
    split; [exact Hnil|]. apply Hclosed. lia.
Defined.

(** * Further properties of the stream *)

(** ** Bytes in order *)

Lemma read_all_bytes w d w' :
  read_all w = (ReadData d, w') -> wire_bytes w = d ++ wire_bytes w'.
Proof.
  revert d w'. induction w as [|[bs|e] w IH]; intros d w' H; cbn in H.
  - inversion H; subst. reflexivity.
  - destruct (read_all w) as [[r|e1] w1] eqn:Hr; [|discriminate].
    inversion H; subst. cbn. rewrite (IH r w') by reflexivity. now rewrite app_assoc.
  - discriminate.
Qed.

Lemma read_upto_bytes n w d w' :
  read_upto n w = (ReadData d, w') -> wire_bytes w = d ++ wire_bytes w'.
Proof.
  revert n d w'. induction w as [|[bs|e] w IH]; intros n d w' H.
  - destruct n; inversion H; subst; reflexivity.
  - destruct n as [|n]; [inversion H; subst; reflexivity|]. cbn [read_upto] in H.
    destruct (length bs <=? S n)%nat.
    + destruct (read_upto (S n - length bs) w) as [[r|e1] w1] eqn:Hr; [|discriminate].
      inversion H; subst. cbn. rewrite (IH _ r w' Hr). now rewrite app_assoc.
    + inversion H; subst. cbn. rewrite app_assoc, take_drop. reflexivity.
  - destruct n as [|n]; [inversion H; subst; reflexivity|]. discriminate.
Qed.

(** A read hands over the next bytes of the wire and leaves the others. *)
Lemma raw_read_bytes amt w d w' :
  raw_read amt w = (ReadData d, w') -> wire_bytes w = d ++ wire_bytes w'.
Proof.
  unfold raw_read. destruct (amt =? 0); [inversion 1; subst; reflexivity|].
  destruct (amt =? -1); [apply read_all_bytes|].
  destruct (amt <? 0); [discriminate|apply read_upto_bytes].
Qed.

Lemma consume_prefix n f g chunks o g' :
  consume n f g = (chunks, o, g') ->
  exists rest, wire_bytes (raw (g_response g)) = concat chunks ++ rest.
Proof.
  revert g chunks o g'. induction n as [|n IH]; intros g chunks o g' H.
  - inversion H; subst. eexists. reflexivity.
  - consume_step H p g1 Hnext; try (inversion H; subst; eexists; reflexivity).
    destruct (consume n f g1) as [[cs o1] g2] eqn:Hrest. inversion H; subst.
    apply gen_next_yield in Hnext as (_ & _ & _ & _ & _ & Hread & _).
    apply raw_read_bytes in Hread. destruct (IH _ _ _ _ Hrest) as [rest Hr].
    exists rest. rewrite Hread, Hr. cbn [concat]. now rewrite app_assoc.
Qed.

(** ** One read per pull *)

Lemma gen_next_reads f g p g1 :
  gen_next f g = (p, g1) ->
  (length (reads (g_response g)) <= length (reads (g_response g1))
   <= S (length (reads (g_response g))))%nat.
Proof.
  intros H. next_cases H; cbn; rewrite ?length_app; simpl; lia.
Qed.

Lemma consume_reads_count n f g chunks o g' :
  consume n f g = (chunks, o, g') ->
  (length (reads (g_response g)) + length chunks <= length (reads (g_response g'))
   /\ length (reads (g_response g')) <= length (reads (g_response g)) + length chunks + 1
   /\ length (reads (g_response g')) <= length (reads (g_response g)) + n)%nat.
Proof.
  revert g chunks o g'. induction n as [|n IH]; intros g chunks o g' H.
  - inversion H; subst. unfold gen_close. destruct (g_state g); cbn; lia.
  - consume_step H p g1 Hnext.
    + destruct (consume n f g1) as [[cs o1] g2] eqn:Hrest. inversion H; subst.
      apply gen_next_yield in Hnext as (_ & _ & _ & _ & Hreads & _).
      apply IH in Hrest. rewrite Hreads, length_app in Hrest. simpl in *. lia.
    + inversion H; subst. apply gen_next_reads in Hnext. simpl. lia.
    + inversion H; subst. apply gen_next_reads in Hnext. simpl. lia.
Qed.

(** ** The size of a chunk *)

Lemma consume_chunk_cap n f g chunks o g' :
  0 <= chunk_size f ->
  received g <= g_required_length g ->
  consume n f g = (chunks, o, g') ->
  Forall (fun d => 0 < len d <= chunk_size f) chunks.
Proof.
  revert g chunks o g'. induction n as [|n IH]; intros g chunks o g' Hcs Hbr H.
  - inversion H. constructor.
  - consume_step H p g1 Hnext; try (inversion H; constructor).
    destruct (consume n f g1) as [[cs o1] g2] eqn:Hrest. inversion H; subst.
    apply gen_next_yield in Hnext as (Hne & Hs & HL & _ & _ & Hread & _).
    apply raw_read_length in Hread; [|lia].
    assert (Hr1 : received g1 = received g + len d) by (unfold received at 1; now rewrite Hs).
    constructor.
    + split; [|lia]. destruct d; [congruence|]. unfold len. simpl. lia.
    + apply (IH g1 cs o g'); [assumption| |assumption]. rewrite Hr1, HL. lia.
Qed.

(** ** A body longer than required *)

(** Every wire is some writes of data followed by the rest, and the writes
    hold the bytes that reach the client. *)
Lemma wire_split w :
  exists segs tail, w = map Data segs ++ tail /\ concat segs = wire_bytes w.
Proof.
  induction w as [|[bs|e] w (segs & tail & Hw & Hc)].
  - exists [], []. split; reflexivity.
  - exists (bs :: segs), tail. cbn. rewrite Hc. split; [now f_equal|reflexivity].
  - exists [], (Raises e :: w). split; reflexivity.
Qed.

(** The wire holds at least the bytes still needed: exactly those are
    handed out, and the stream ends without an error. *)
Lemma consume_truncates n f g segs tail :
  well_configured f ->
  g_state g <> Finished ->
  raw (g_response g) = map Data segs ++ tail ->
  received g <= g_required_length g ->
  g_required_length g - received g <= len (concat segs) ->
  (Z.to_nat (g_required_length g - received g) < n)%nat ->
  exists chunks g',
    consume n f g = (chunks, Exhausted, g')
    /\ concat chunks = take (Z.to_nat (g_required_length g - received g)) (concat segs).
Proof.
  intros Hwf. pose proof (sleep_if_set_ok f Hwf) as Hsleep. destruct Hwf as [Hcs _].
  revert g segs. induction n as [|n IH]; intros g segs Hnf Hraw Hbr Hneed Hn; [lia|].
  destruct (Z.eq_dec (g_required_length g - received g) 0) as [Hz|Hnz].
  - rewrite Hz. cbn [Z.to_nat take consume]. unfold gen_next. unfold received in Hz.
    destruct (g_state g) as [|br|] eqn:Hst; [| |congruence].
    + unfold _chunks_round, response_read. rewrite Hsleep, Hz.
      rewrite Z.min_r by lia. cbn. eexists [], _. split; reflexivity.
    + replace (br >=? g_required_length g) with true
        by (symmetry; rewrite Z.geb_leb; apply Z.leb_le; lia).
      eexists [], _. split; reflexivity.
  - set (need := g_required_length g - received g) in *.
    set (amt := Z.min (chunk_size f) need).
    assert (Hready := round_ready g Hnf ltac:(lia)).
    destruct (gen_next_full f g segs tail amt) as (g1 & segs' & Hnext & Hraw1 & Hc);
      auto; try (unfold amt; lia).
    pose proof (gen_next_yield _ _ _ _ Hnext) as (_ & Hs & HL & _).
    assert (Hd : len (take (Z.to_nat amt) (concat segs)) = amt)
      by (apply len_take_le; unfold amt; lia).
    rewrite Hd in Hs.
    assert (Hr1 : received g1 = received g + amt) by (unfold received at 1; now rewrite Hs).
    assert (Hneed1 : g_required_length g1 - received g1 = need - amt)
      by (rewrite Hr1, HL; unfold need; lia).
    destruct (IH g1 segs') as (chunks & g' & Hrun & Hcat).
    + rewrite Hs. discriminate.
    + assumption.
    + rewrite Hr1, HL. unfold amt, need. lia.
    + rewrite Hneed1, Hc, len_drop by (unfold amt; lia). lia.
    + rewrite Hneed1. unfold amt in *. lia.
    + exists (take (Z.to_nat amt) (concat segs) :: chunks), g'.
      cbn [consume]. rewrite Hnext, Hrun. split; [reflexivity|].
      cbn [concat]. rewrite Hcat, Hneed1, Hc, take_take_drop. f_equal.
      unfold amt. lia.
Qed.

(** ** Sessions on the heap *)

Lemma insert_last {A} (l : list A) (x y : A) :
  <[length l := y]> (l ++ [x]) = l ++ [y].
Proof.
  replace (length l) with (length l + 0)%nat by lia. now rewrite insert_app_r.
Qed.

Section FurtherProperties.

Variable urlparse : string -> Result ParseResult.
Variable tuf_version : string.
Variable default_user_agent : string.

Local Abbreviation get_session := (_get_session urlparse tuf_version default_user_agent).
Local Abbreviation the_fetch := (fetch urlparse tuf_version default_user_agent).
Local Abbreviation the_run := (run_calls urlparse tuf_version default_user_agent).

(** The three ways [_get_session] goes: it raises and leaves the state,
    it finds the key in the pool and leaves the state, or it adds a new
    session under a key that was not there. *)
Lemma _get_session_cases st url :
  (exists e, get_session st url = (Raise e, st))
  \/ (exists s, get_session st url = (Ok s, st))
  \/ (exists key,
        _sessions (self st) !! key = None
        /\ get_session st url
           = (Ok (length (heap st)),
              mkState (set_sessions (self st)
                         (<[key := length (heap st)]> (_sessions (self st))))
                      (heap st ++ [new_tuf_session tuf_version default_user_agent])
                      (net st))).
Proof.
  destruct (urlparse url) as [p|e] eqn:Hp;
    [|left; exists e; now apply _get_session_parse_error].
  destruct (truthy_str (scheme p)) eqn:Hs;
    [|left; eexists; apply (_get_session_malformed _ _ _ st url p); auto].
  destruct (truthy_opt_str (hostname p)) eqn:Hh;
    [|left; eexists; apply (_get_session_malformed _ _ _ st url p); auto].
  right. destruct (_sessions (self st) !! session_index_of p) as [s|] eqn:Hk.
  - left. exists s. now apply (_get_session_hit _ _ _ st url p).
  - right. exists (session_index_of p). split; [assumption|].
    unfold _get_session. rewrite Hp, Hs, Hh. cbn [negb orb]. rewrite Hk.
    rewrite requests_Session_user_agent, insert_last. reflexivity.
Qed.

Lemma new_tuf_session_headers :
  tuf_session tuf_version default_user_agent (new_tuf_session tuf_version default_user_agent).
Proof.
  unfold tuf_session, new_tuf_session. cbn [headers]. split; [|split].
  - rewrite lookup_insert_ne by discriminate. apply lookup_insert_eq.
  - apply lookup_insert_eq.
  - intros k Hae Hua. rewrite !lookup_insert_ne by congruence. reflexivity.
Qed.

Lemma _get_session_heap_keeps st url i sess :
  heap st !! i = Some sess -> heap (snd (get_session st url)) !! i = Some sess.
Proof.
  intros Hi. destruct (_get_session_cases st url) as [(e & H)|[(s & H)|(key & _ & H)]];
    rewrite H; cbn [snd heap]; auto.
  rewrite lookup_app_l; [assumption|]. eapply lookup_lt_Some; eauto.
Qed.

Lemma _get_session_heap_size st url :
  pool_wf st -> length (heap st) = size (_sessions (self st)) ->
  length (heap (snd (get_session st url)))
  = size (_sessions (self (snd (get_session st url)))).
Proof.
  intros _ Hsize. destruct (_get_session_cases st url) as [(e & H)|[(s & H)|(key & Hk & H)]];
    rewrite H; cbn [snd heap self set_sessions _sessions]; auto.
  rewrite length_app, map_size_insert_None by assumption. simpl. lia.
Qed.

Lemma _get_session_heap_headers st url :
  Forall (tuf_session tuf_version default_user_agent) (heap st) ->
  Forall (tuf_session tuf_version default_user_agent) (heap (snd (get_session st url))).
Proof.
  intros Hall. destruct (_get_session_cases st url) as [(e & H)|[(s & H)|(key & _ & H)]];
    rewrite H; cbn [snd heap]; auto.
  apply Forall_app. split; [assumption|]. constructor; [|constructor].
  apply new_tuf_session_headers.
Qed.

(** What every state reached from a new fetcher satisfies: the pool is
    well formed, there are as many session objects as keys, and every
    session object carries the headers set at its creation. *)
Lemma run_calls_invariant calls st :
  pool_wf st ->
  length (heap st) = size (_sessions (self st)) ->
  Forall (tuf_session tuf_version default_user_agent) (heap st) ->
  pool_wf (the_run st calls)
  /\ length (heap (the_run st calls)) = size (_sessions (self (the_run st calls)))
  /\ Forall (tuf_session tuf_version default_user_agent) (heap (the_run st calls)).
Proof.
  revert st. induction calls as [|c calls IH]; intros st Hwf Hsize Hall; cbn [run_calls].
  - auto.
  - destruct (fetch_pool urlparse tuf_version default_user_agent st
                (call_url c) (call_required_length c) (call_server c)) as [Hp Hh].
    apply IH.
    + now apply fetch_pool_wf.
    + rewrite Hp, Hh. now apply _get_session_heap_size.
    + rewrite Hh. now apply _get_session_heap_headers.
Qed.

Lemma run_calls_heap_keeps calls st i sess :
  heap st !! i = Some sess -> heap (the_run st calls) !! i = Some sess.
Proof.
  revert st. induction calls as [|c calls IH]; intros st Hi; cbn [run_calls].
  - assumption.
  - apply IH.
    rewrite (proj2 (fetch_pool urlparse tuf_version default_user_agent st
                      (call_url c) (call_required_length c) (call_server c))).
    now apply _get_session_heap_keeps.
Qed.

(** ** The session pool *)


(** X2, nothing is evicted.  Over any series of calls, every entry of the
    pool stays under its key with the same session, and every session
    object on the heap stays as it is. *)
Theorem pool_and_sessions_are_permanent st calls :
  let st' := run_calls urlparse tuf_version default_user_agent st calls in
  (forall k s, _sessions (self st) !! k = Some s -> _sessions (self st') !! k = Some s)
  /\ (forall i sess, heap st !! i = Some sess -> heap st' !! i = Some sess).
Proof.
  split.
  - intros k s. apply run_calls_keeps_entries.
  - intros i sess. apply run_calls_heap_keeps.
Qed.

(** X3, endpoints are kept apart.  When neither scheme has a [+] in it,
    as for [http] and [https], two calls whose (scheme, hostname) pairs
    differ are given different session objects. *)
Theorem plus_free_endpoints_distinct_sessions st url1 L1 srv1 s1 st1 calls url2 s2 st3
    p1 p2 :
  pool_wf st ->
  urlparse url1 = Ok p1 ->
  urlparse url2 = Ok p2 ->
  has_plus (scheme p1) = false ->
  has_plus (scheme p2) = false ->
  (scheme p1, hostname p1) <> (scheme p2, hostname p2) ->
  get_session st url1 = (Ok s1, st1) ->
  get_session (the_run (snd (the_fetch st url1 L1 srv1)) calls) url2 = (Ok s2, st3) ->
  s1 <> s2.
Proof.
  intros Hwf Hq1 Hq2 Hp1 Hp2 Hpairs Hg1 Hg2.
  eapply distinct_keys_distinct_sessions; eauto.
  intros Hkey. apply Hpairs.
  pose proof (_get_session_returns _ _ _ _ _ _ _ Hg1) as (q1 & Hr1 & _ & Hh1 & _).
  pose proof (_get_session_returns _ _ _ _ _ _ _ Hg2) as (q2 & Hr2 & _ & Hh2 & _).
  rewrite Hq1 in Hr1. inversion Hr1; subst q1.
  rewrite Hq2 in Hr2. inversion Hr2; subst q2.
  destruct (session_index_injective _ _ Hp1 Hp2 Hh1 Hh2 Hkey) as [-> ->]. reflexivity.
Qed.

(** X4, one session object per key.  In every state a new fetcher reaches
    by calls of [fetch], each entry of the pool names an object of the
    heap, no two keys name the same object, and the heap holds exactly as
    many session objects as the pool has keys. *)
Theorem one_session_per_key calls :
  pool_wf (the_run initial_state calls)
  /\ length (heap (the_run initial_state calls))
     = size (_sessions (self (the_run initial_state calls))).
Proof.
  destruct (run_calls_invariant calls initial_state) as (Hwf & Hsize & _).
  - apply pool_wf_initial.
  - reflexivity.
  - constructor.
  - split; assumption.
Qed.

(** X5, the headers of pooled sessions.  In every state a new fetcher
    reaches by calls of [fetch], the session stored under any key has
    [Accept-Encoding: identity], the user agent [tuf/<version> <user agent
    of requests>], and the other default headers of [requests]. *)
Theorem pooled_sessions_carry_tuf_headers calls k s :
  _sessions (self (the_run initial_state calls)) !! k = Some s ->
  exists sess,
    heap (the_run initial_state calls) !! s = Some sess
    /\ tuf_session tuf_version default_user_agent sess.
Proof.
  intros Hk.
  destruct (run_calls_invariant calls initial_state) as ([Hin _] & _ & Hall).
  - apply pool_wf_initial.
  - reflexivity.
  - constructor.
  - specialize (Hin k s Hk). apply lookup_lt_is_Some in Hin as [sess Hsess].
    exists sess. split; [assumption|].
    rewrite Forall_forall in Hall. apply Hall. eapply list_elem_of_lookup_2; eauto.
Qed.

(** ** The request *)

(** X6, one streaming request.  For a URL with scheme and hostname, a
    call of [fetch] issues exactly one GET whatever the network answers:
    on the session of the URL's key, with [stream=True] and with the
    fetcher's [socket_timeout] as timeout.  The settings of the fetcher are
    left as they were. *)
Theorem fetch_issues_one_streaming_get st url p required_length srv :
  urlparse url = Ok p ->
  truthy_str (scheme p) = true ->
  truthy_opt_str (hostname p) = true ->
  exists s,
    fst (get_session st url) = Ok s
    /\ net (snd (the_fetch st url required_length srv))
       = net st ++ [NetGet s url true (socket_timeout (self st))]
    /\ socket_timeout (self (snd (the_fetch st url required_length srv)))
       = socket_timeout (self st)
    /\ chunk_size (self (snd (the_fetch st url required_length srv))) = chunk_size (self st)
    /\ sleep_before_round (self (snd (the_fetch st url required_length srv)))
       = sleep_before_round (self st).
Proof.
  intros Hp Hs Hh.
  destruct (_get_session_ok urlparse tuf_version default_user_agent st url p Hp Hs Hh)
    as (s & st1 & Hg).
  pose proof (_get_session_returns _ _ _ _ _ _ _ Hg)
    as (q & _ & _ & _ & _ & _ & Hnet & Hto & Hcs & Hsl).
  exists s. rewrite Hg. split; [reflexivity|].
  unfold fetch. rewrite Hg, Hnet, Hto.
  destruct (session_get srv url) as [r|e]; [|repeat split; assumption].
  destruct (raise_for_status r) as [[]|[]]; repeat split; assumption.
Qed.

(** X7, the download is deferred.  For a URL with scheme and hostname
    and a response whose status is not a failure (anything outside 400 to
    599), [fetch] returns the unstarted stream over the response: nothing
    has been read from the body and the response is open. *)
Theorem non_failure_status_returns_unstarted_stream st url p required_length
    status rsn rurl body :
  urlparse url = Ok p ->
  truthy_str (scheme p) = true ->
  truthy_opt_str (hostname p) = true ->
  status_indicates_failure status = false ->
  exists g st',
    the_fetch st url required_length (Responds status rsn rurl body) = (FetchReturns g, st')
    /\ g_state g = Created
    /\ g_required_length g = required_length
    /\ raw (g_response g) = body
    /\ reads (g_response g) = []
    /\ closed (g_response g) = 0%nat.
Proof.
  intros Hp Hs Hh Hok.
  destruct (_get_session_ok urlparse tuf_version default_user_agent st url p Hp Hs Hh)
    as (s & st1 & Hg).
  unfold fetch. rewrite Hg. cbn [session_get].
  rewrite raise_for_status_success by assumption.
  eexists _, _. split; [reflexivity|]. repeat split.
Qed.

(** ** The stream *)

(** X8, bytes in order.  Whatever the settings, the required length and
    the consumer, the chunks handed out, put end to end, are a prefix of
    the bytes the server sent before the body ended or a read failed: no
    byte is skipped, repeated or moved. *)
Theorem chunks_are_a_prefix_of_the_body st url required_length status rsn rurl body
    g st' n chunks o g' :
  the_fetch st url required_length (Responds status rsn rurl body) = (FetchReturns g, st') ->
  consume n (self st') g = (chunks, o, g') ->
  exists rest, wire_bytes body = concat chunks ++ rest.
Proof.
  intros Hfetch Hrun.
  apply fetch_returns_inv in Hfetch as (s0 & r0 & u0 & b0 & Hsrv & -> & _).
  inversion Hsrv; subst. apply consume_prefix in Hrun. exact Hrun.
Qed.

(** X9, reads follow pulls.  A consumer that pulls at most [n] times
    causes at most [n] reads of the body; there is one read for each chunk
    it was handed and at most one more, the read that found the end of the
    body or failed. *)
Theorem reads_follow_pulls st url required_length srv g st' n chunks o g' :
  the_fetch st url required_length srv = (FetchReturns g, st') ->
  consume n (self st') g = (chunks, o, g') ->
  (length chunks <= length (reads (g_response g')) <= length chunks + 1)%nat
  /\ (length (reads (g_response g')) <= n)%nat.
Proof.
  intros Hfetch Hrun.
  apply fetch_returns_inv in Hfetch as (status & rsn & rurl & body & -> & -> & _).
  apply consume_reads_count in Hrun. cbn in Hrun. lia.
Qed.

(** X10, the size of a chunk.  With a required length and a chunk size
    that are not negative, every chunk handed out has at least one byte
    and at most [chunk_size] bytes. *)
Theorem chunk_size_caps_every_chunk st url required_length srv g st' n chunks o g' :
  0 <= required_length ->
  0 <= chunk_size (self st) ->
  the_fetch st url required_length srv = (FetchReturns g, st') ->
  consume n (self st') g = (chunks, o, g') ->
  Forall (fun d => 0 < len d <= chunk_size (self st)) chunks.
Proof.
  intros HL Hcs Hfetch Hrun.
  apply fetch_returns_inv in Hfetch as (status & rsn & rurl & body & -> & -> & _ & Hcs' & _).
  rewrite <- Hcs' in *.
  apply (consume_chunk_cap _ _ _ _ _ _ Hcs) in Hrun; [assumption|]. cbn. lia.
Qed.

(** X11, a body longer than required is cut.  When at least
    [required_length] bytes arrive before the body ends or a read fails, a
    consumer that keeps pulling from a well-configured fetcher's stream is
    handed exactly the first [required_length] bytes and then the normal
    end of the stream; the response has been closed once.  What follows
    on the wire, data or error, is never read. *)
Theorem over_length_body_is_truncated st url required_length status rsn rurl body g st' n :
  well_configured (self st) ->
  0 <= required_length ->
  required_length <= len (wire_bytes body) ->
  (Z.to_nat required_length < n)%nat ->
  the_fetch st url required_length (Responds status rsn rurl body) = (FetchReturns g, st') ->
  exists chunks g',
    consume n (self st') g = (chunks, Exhausted, g')
    /\ concat chunks = take (Z.to_nat required_length) (wire_bytes body)
    /\ total_length chunks = required_length
    /\ closed (g_response g') = 1%nat.
Proof.
  intros Hwf HL Hlen Hn Hfetch.
  apply fetch_returns_inv in Hfetch as (s0 & r0 & u0 & b0 & Hsrv & -> & _ & Hcs & Hsl).
  inversion Hsrv; subst s0 r0 u0 b0. clear Hsrv.
  assert (Hwf' : well_configured (self st'))
    by (unfold well_configured in *; now rewrite Hcs, Hsl).
  destruct (wire_split body) as (segs & tail & Hbody & Hbytes).
  destruct (consume_truncates n (self st')
              (_chunks (mkResponse status rsn rurl body [] 0) required_length) segs tail)
    as (chunks & g' & Hrun & Hcat); auto; try discriminate;
    unfold received, _chunks; cbn [g_state g_response g_required_length raw];
    rewrite ?Z.sub_0_r, ?Hbytes; try lia.
  unfold received, _chunks in Hcat. cbn [g_state g_required_length] in Hcat.
  rewrite Z.sub_0_r, Hbytes in Hcat.
  exists chunks, g'.
  pose proof (fun H1 H2 => consume_closes _ _ _ _ _ _ H1 H2 Hrun) as Hc.
  destruct Hc as [_ Hclosed]; [discriminate|left; lia|].
  repeat split; auto.
  unfold total_length. rewrite Hcat, length_take. unfold len in Hlen. lia.
Qed.

(** X12, other errors of a read pass.  When a read of the body fails
    with an exception that is not [ReadTimeoutError] before the required
    length has arrived, a consumer that keeps pulling is handed the full
    chunks that were complete and then that very exception; when it gets
    it the response has been closed once. *)
Theorem read_error_passes_unchanged st url required_length status rsn rurl segs e tail g st' n :
  well_configured (self st) ->
  _chunks_except e = e ->
  len (concat segs) < required_length ->
  (length (concat segs) < n)%nat ->
  the_fetch st url required_length (Responds status rsn rurl (map Data segs ++ Raises e :: tail))
  = (FetchReturns g, st') ->
  exists chunks lost g',
    consume n (self st') g = (chunks, Failed e, g')
    /\ concat segs = concat chunks ++ lost
    /\ closed (g_response g') = 1%nat
    /\ g_state g' = Finished.
Proof.
  intros Hwf He Hshort Hn Hfetch.
  apply fetch_returns_inv in Hfetch as (s0 & r0 & u0 & b0 & Hsrv & -> & _ & Hcs & Hsl).
  inversion Hsrv; subst s0 r0 u0 b0. clear Hsrv.
  assert (Hwf' : well_configured (self st'))
    by (unfold well_configured in *; now rewrite Hcs, Hsl).
  destruct (consume_read_error n (self st')
              (_chunks (mkResponse status rsn rurl (map Data segs ++ Raises e :: tail) [] 0)
                       required_length)
              segs e tail)
    as (chunks & lost & g' & Hrun & Hcat & _); auto; try discriminate.
  rewrite He in Hrun. exists chunks, lost, g'.
  pose proof (fun H1 H2 => consume_closes _ _ _ _ _ _ H1 H2 Hrun) as Hc.
  destruct Hc as [Hfin Hclosed]; [discriminate|left; lia|].
  repeat split; auto.
Qed.

(** X13, a single pass.  Once a consumer that pulled at least once is
    done with the stream, however it ended, the stream is over for good:
    any later consumer is handed no chunk, is told at its first pull that
    the stream has ended, and leaves the generator and the response as
    they are. *)
Theorem ended_stream_stays_ended st url required_length srv g st' n chunks o g' m f :
  (0 < n)%nat ->
  the_fetch st url required_length srv = (FetchReturns g, st') ->
  consume n (self st') g = (chunks, o, g') ->
  consume (S m) f g' = ([], Exhausted, g') /\ consume 0 f g' = ([], Abandoned, g').
Proof.
  intros Hn Hfetch Hrun.
  apply fetch_returns_inv in Hfetch as (status & rsn & rurl & body & -> & -> & _).
  apply consume_closes in Hrun as [Hfin _]; [|discriminate|now left].
  destruct (finished_is_final f g' Hfin) as [Hnext Hclose].
  cbn [consume]. rewrite Hnext, Hclose. split; reflexivity.
Qed.

End FurtherProperties.

(** ** Further runs on concrete inputs *)


(** The session of the first call is still there after two more calls. *)
Lemma pool_and_sessions_are_permanent_witness :
  let st := snd (Concrete.fetch initial_state Concrete.url 10
                   (Concrete.ok (map Data Concrete.ten_bytes))) in
  _sessions (self st) !! "http+example.com" = Some 0%nat
  /\ _sessions (self (Examples.run_calls st Examples.two_hosts)) !! "http+example.com"
     = Some 0%nat.
Proof.
  intros st.
  assert (H : _sessions (self st) !! "http+example.com" = Some 0%nat)
    by (vm_compute; reflexivity).
  split; [exact H|].
  exact (proj1 (pool_and_sessions_are_permanent UrlParse.urlparse "0.19.0"
                  "python-requests/2.25.1" st Examples.two_hosts) _ _ H).
Defined.

(** [example.com] and its mirror, both over [https]. *)
Lemma plus_free_endpoints_distinct_sessions_witness :
  let url1 := "https://example.com/1.root.json" in
  let url2 := "https://mirror.example.org/1.root.json" in
  let st := snd (Concrete.fetch initial_state url1 100
                   (Responds 200 "OK" url1 (map Data Concrete.ten_bytes))) in
  fst (Concrete._get_session initial_state url1) = Ok 0%nat
  /\ fst (Concrete._get_session st url2) = Ok 1%nat
  /\ 0%nat <> 1%nat.
Proof.
  intros url1 url2 st. split; [vm_compute; reflexivity|]. split; [vm_compute; reflexivity|].
  apply (plus_free_endpoints_distinct_sessions UrlParse.urlparse "0.19.0"
           "python-requests/2.25.1" initial_state url1 100
           (Responds 200 "OK" url1 (map Data Concrete.ten_bytes)) 0%nat
           (snd (Concrete._get_session initial_state url1)) [] url2 1%nat
           (snd (Concrete._get_session st url2))
           (mkParseResult "https" (Some "example.com"))
           (mkParseResult "https" (Some "mirror.example.org"))).
  - apply pool_wf_initial.
  - reflexivity.
  - reflexivity.
  - reflexivity.
  - reflexivity.
  - vm_compute. discriminate.
  - vm_compute. reflexivity.
  - vm_compute. reflexivity.
Defined.

(** Three calls to two hosts leave two sessions for two keys. *)
Lemma one_session_per_key_witness :
  length (heap (Examples.run_calls initial_state Examples.two_hosts)) = 2%nat
  /\ length (heap (Examples.run_calls initial_state Examples.two_hosts))
     = size (_sessions (self (Examples.run_calls initial_state Examples.two_hosts))).
Proof.
  split; [vm_compute; reflexivity|].
  exact (proj2 (one_session_per_key UrlParse.urlparse "0.19.0" "python-requests/2.25.1"
                  Examples.two_hosts)).
Defined.

(** The session for [https://example.com] after those calls. *)
Lemma pooled_sessions_carry_tuf_headers_witness :
  let st := Examples.run_calls initial_state Examples.two_hosts in
  _sessions (self st) !! "https+example.com" = Some 0%nat
  /\ exists sess,
       heap st !! 0%nat = Some sess
       /\ headers sess !! "Accept-Encoding" = Some "identity"
       /\ headers sess !! "User-Agent" = Some "tuf/0.19.0 python-requests/2.25.1".
Proof.
  intros st.
  assert (H : _sessions (self st) !! "https+example.com" = Some 0%nat)
    by (vm_compute; reflexivity).
  split; [exact H|].
  destruct (pooled_sessions_carry_tuf_headers UrlParse.urlparse "0.19.0"
              "python-requests/2.25.1" Examples.two_hosts _ _ H)
    as (sess & Hsess & Hae & Hua & _).
  exists sess. auto.
Defined.

(** A refused connection: the request was issued all the same. *)
Lemma fetch_issues_one_streaming_get_witness :
  UrlParse.urlparse Concrete.url = Ok (mkParseResult "http" (Some "example.com"))
  /\ exists s,
       fst (Concrete._get_session initial_state Concrete.url) = Ok s
       /\ net (snd (Concrete.fetch initial_state Concrete.url 10
                      (ConnFails Concrete.connection_error)))
          = [] ++ [NetGet s Concrete.url true 4].
Proof.
  split; [reflexivity|].
  destruct (fetch_issues_one_streaming_get UrlParse.urlparse "0.19.0"
              "python-requests/2.25.1" initial_state Concrete.url
              (mkParseResult "http" (Some "example.com")) 10
              (ConnFails Concrete.connection_error) eq_refl eq_refl eq_refl)
    as (s & Hs & Hnet & _).
  exists s. split; [exact Hs|exact Hnet].
Defined.

(** A 304 is not a failure. *)
Lemma non_failure_status_returns_unstarted_stream_witness :
  status_indicates_failure 304 = false
  /\ exists g st',
       Concrete.fetch initial_state Concrete.url 10
         (Responds 304 "Not Modified" Concrete.url [])
       = (FetchReturns g, st')
       /\ g_state g = Created
       /\ closed (g_response g) = 0%nat.
Proof.
  split; [reflexivity|].
  destruct (non_failure_status_returns_unstarted_stream UrlParse.urlparse "0.19.0"
              "python-requests/2.25.1" initial_state Concrete.url
              (mkParseResult "http" (Some "example.com")) 10 304 "Not Modified"
              Concrete.url [] eq_refl eq_refl eq_refl eq_refl)
    as (g & st' & Hfetch & Hst & _ & _ & _ & Hclosed).
  exists g, st'. auto.
Defined.

(** Twenty bytes on the wire, seven required, chunks of four. *)
Lemma over_length_body_is_truncated_witness :
  let body := [Data Examples.twenty_bytes; Concrete.stalls] in
  let st' := Concrete.fetched (Concrete.with_chunk_size 4) 7 (Concrete.ok body) in
  7 <= len (wire_bytes body)
  /\ exists chunks g',
       consume 8 (self st') (Concrete.stream 7 body) = (chunks, Exhausted, g')
       /\ concat chunks = ["a"; "b"; "c"; "d"; "e"; "f"; "g"]%byte
       /\ total_length chunks = 7
       /\ closed (g_response g') = 1%nat.
Proof.
  intros body st'.
  assert (Hlen : 7 <= len (wire_bytes body)) by (vm_compute; discriminate).
  split; [exact Hlen|].
  apply (over_length_body_is_truncated UrlParse.urlparse "0.19.0" "python-requests/2.25.1"
           (Concrete.with_chunk_size 4) Concrete.url 7 200 "OK" Concrete.url body
           (Concrete.stream 7 body) st' 8).
  - split; cbn; [lia|exact I].
  - lia.
  - exact Hlen.
  - vm_compute. lia.
  - vm_compute. reflexivity.
Defined.

(** The same wire seen by a consumer that stops after one chunk. *)
Lemma chunks_are_a_prefix_of_the_body_witness :
  let body := [Data Examples.twenty_bytes; Concrete.stalls] in
  let st' := Concrete.fetched (Concrete.with_chunk_size 4) 7 (Concrete.ok body) in
  fst (fst (consume 1 (self st') (Concrete.stream 7 body))) = [["a"; "b"; "c"; "d"]%byte]
  /\ exists rest,
       wire_bytes body
       = concat (fst (fst (consume 1 (self st') (Concrete.stream 7 body)))) ++ rest.
Proof.
  intros body st'. split; [vm_compute; reflexivity|].
  apply (chunks_are_a_prefix_of_the_body UrlParse.urlparse "0.19.0" "python-requests/2.25.1"
           (Concrete.with_chunk_size 4) Concrete.url 7 200 "OK" Concrete.url body
           (Concrete.stream 7 body) st' 1
           (fst (fst (consume 1 (self st') (Concrete.stream 7 body))))
           (snd (fst (consume 1 (self st') (Concrete.stream 7 body))))
           (snd (consume 1 (self st') (Concrete.stream 7 body)))).
  - vm_compute. reflexivity.
  - destruct (consume 1 (self st') (Concrete.stream 7 body)) as [[chunks o] g'].
    reflexivity.
Defined.

(** Two pulls of a stream of ten bytes: two reads. *)
Lemma reads_follow_pulls_witness :
  let body := map Data Concrete.ten_bytes in
  let st' := Concrete.fetched (Concrete.with_chunk_size 4) 10 (Concrete.ok body) in
  let run := consume 2 (self st') (Concrete.stream 10 body) in
  reads (g_response (snd run)) = [4; 4]
  /\ (length (reads (g_response (snd run))) <= 2)%nat.
Proof.
  intros body st' run. split; [vm_compute; reflexivity|].
  refine (proj2 (reads_follow_pulls UrlParse.urlparse "0.19.0" "python-requests/2.25.1"
                   (Concrete.with_chunk_size 4) Concrete.url 10 (Concrete.ok body)
                   (Concrete.stream 10 body) st' 2
                   (fst (fst run)) (snd (fst run)) (snd run) _ _)).
  - vm_compute. reflexivity.
  - unfold run. destruct (consume 2 (self st') (Concrete.stream 10 body)) as [[chunks o] g'].
    reflexivity.
Defined.

(** No chunk of that stream has more than four bytes. *)
Lemma chunk_size_caps_every_chunk_witness :
  let body := map Data Concrete.ten_bytes in
  let st' := Concrete.fetched (Concrete.with_chunk_size 4) 10 (Concrete.ok body) in
  let run := consume 5 (self st') (Concrete.stream 10 body) in
  0 <= chunk_size (self (Concrete.with_chunk_size 4))
  /\ Forall (fun d => 0 < len d <= 4) (fst (fst run)).
Proof.
  intros body st' run. split; [cbn; lia|].
  refine (chunk_size_caps_every_chunk UrlParse.urlparse "0.19.0" "python-requests/2.25.1"
            (Concrete.with_chunk_size 4) Concrete.url 10 (Concrete.ok body)
            (Concrete.stream 10 body) st' 5
            (fst (fst run)) (snd (fst run)) (snd run) _ _ _ _).
  - lia.
  - cbn. lia.
  - vm_compute. reflexivity.
  - unfold run. destruct (consume 5 (self st') (Concrete.stream 10 body)) as [[chunks o] g'].
    reflexivity.
Defined.

(** The connection breaks after ten of twelve bytes. *)
Lemma read_error_passes_unchanged_witness :
  let body := map Data Concrete.ten_bytes ++ [Raises Examples.broken] in
  let st' := Concrete.fetched (Concrete.with_chunk_size 4) 12 (Concrete.ok body) in
  _chunks_except Examples.broken = Examples.broken
  /\ exists chunks lost g',
       consume 11 (self st') (Concrete.stream 12 body)
       = (chunks, Failed Examples.broken, g')
       /\ concat Concrete.ten_bytes = concat chunks ++ lost
       /\ closed (g_response g') = 1%nat
       /\ g_state g' = Finished.
Proof.
  intros body st'. split; [reflexivity|].
  apply (read_error_passes_unchanged UrlParse.urlparse "0.19.0" "python-requests/2.25.1"
           (Concrete.with_chunk_size 4) Concrete.url 12 200 "OK" Concrete.url Concrete.ten_bytes
           Examples.broken [] (Concrete.stream 12 body) st' 11).
  - split; cbn; [lia|exact I].
  - reflexivity.
  - vm_compute. reflexivity.
  - vm_compute. lia.
  - vm_compute. reflexivity.
Defined.

(** A consumer stops after one chunk; a second consumer gets nothing. *)
Lemma ended_stream_stays_ended_witness :
  let body := map Data Concrete.ten_bytes in
  let st' := Concrete.fetched (Concrete.with_chunk_size 4) 10 (Concrete.ok body) in
  let g' := snd (consume 1 (self st') (Concrete.stream 10 body)) in
  (0 < 1)%nat
  /\ consume 3 (self st') g' = ([], Exhausted, g').
Proof.
  intros body st' g'. split; [lia|].
  refine (proj1 (ended_stream_stays_ended UrlParse.urlparse "0.19.0" "python-requests/2.25.1"
                   (Concrete.with_chunk_size 4) Concrete.url 10 (Concrete.ok body)
                   (Concrete.stream 10 body) st' 1
                   (fst (fst (consume 1 (self st') (Concrete.stream 10 body))))
                   (snd (fst (consume 1 (self st') (Concrete.stream 10 body))))
                   g' 2%nat (self st') _ _ _)).
  - lia.
  - vm_compute. reflexivity.
  - unfold g'. destruct (consume 1 (self st') (Concrete.stream 10 body)) as [[chunks o] g1].
    reflexivity.
Defined.
